(** * tarantool_locksmith: a model of [locksmith.py] and its properties

    The module defines two classes.  [Locksmith] is the coordinator: it
    keeps the connection settings, lazily opens one channel to the
    Tarantool instance that runs the [locksmith:*] stored procedures and
    turns their reply tuples into [Lock] handles and booleans.  [Lock] is
    the handle: a name, a uid and a reference to its coordinator.

    Python objects are mutable and shared, so both classes live in a heap
    and methods are computations in a state-and-exception monad.  Whatever
    the module does not own (the connection class, the lock object, the
    remote procedures) answers through an [Extern] oracle that sees the
    history of interactions so far; every interaction is logged in the
    world's trace together with its outcome. *)

From Stdlib Require Import ZArith QArith String List.
From stdpp Require Import base gmap strings list.

Open Scope string_scope.
Set Warnings "-register-all".

(** ** Python values *)

(** Heap addresses, connection instances and [threading.Lock] instances
    are all told apart by a number drawn from one counter. *)
Abbreviation loc := nat (only parsing).
Abbreviation conn := nat (only parsing).

(** The data that crosses the wire (msgpack: nil, booleans, numbers,
    strings, arrays, maps) and that callers pass as plain arguments.
    A float is carried by the rational it denotes. *)
Inductive pyval : Type :=
| PNone
| PBool (b : bool)
| PInt (z : Z)
| PFloat (q : Q)
| PStr (s : string)
| PTuple (l : list pyval)
| PList (l : list pyval)
| PDict (l : list (pyval * pyval)).

(** [x is not None] *)
Definition is_not_None (v : pyval) : bool :=
  match v with PNone => false | _ => true end.

(** [bool(x)], as used by [not host or not port] *)
Definition truthy (v : pyval) : bool :=
  match v with
  | PNone => false
  | PBool b => b
  | PInt z => negb (z =? 0)%Z
  | PFloat q => negb (Qeq_bool q 0)
  | PStr s => negb (String.eqb s EmptyString)
  | PTuple l | PList l => match l with [] => false | _ => true end
  | PDict l => match l with [] => false | _ => true end
  end.

(** [isinstance(x, int)]; [bool] is a subclass of [int]. *)
Definition isinstance_int (v : pyval) : bool :=
  match v with PInt _ | PBool _ => true | _ => false end.

(** ** Exceptions *)

Inductive exn : Type :=
| AttributeError (msg : string)
| TypeError (msg : string)
| IndexError (msg : string)
| KeyError (msg : string)
| BadConfigException (msg : string)
| ZeroTupleException (msg : string)
| BadTupleException (msg : string)
| DatabaseError (msg : string)
| NetworkError (msg : string)
| OtherError (cls msg : string).

Inductive result (A : Type) : Type :=
| Ok (a : A)
| Raise (e : exn).
Arguments Ok {A} a.
Arguments Raise {A} e.

(** ** Subscripting: [v[i]] for a constant integer index *)

Definition norm_index (len : nat) (i : Z) : option nat :=
  let n := Z.of_nat len in
  let j := if (i <? 0)%Z then (i + n)%Z else i in
  if ((0 <=? j) && (j <? n))%Z then Some (Z.to_nat j) else None.

(** [k == i] for a dictionary key [k] and an integer [i]:
    [0 == False == 0.0] in Python. *)
Definition key_eq_int (k : pyval) (i : Z) : bool :=
  match k with
  | PInt z => (z =? i)%Z
  | PBool b => ((if b then 1 else 0) =? i)%Z
  | PFloat q => Qeq_bool q (inject_Z i)
  | _ => false
  end.

Fixpoint dict_get (l : list (pyval * pyval)) (i : Z) : option pyval :=
  match l with
  | [] => None
  | (k, v) :: l' => if key_eq_int k i then Some v else dict_get l' i
  end.

Definition getitem (v : pyval) (i : Z) : result pyval :=
  match v with
  | PTuple l =>
      match norm_index (length l) i with
      | Some n => match l !! n with
                  | Some x => Ok x
                  | None => Raise (IndexError "tuple index out of range")
                  end
      | None => Raise (IndexError "tuple index out of range")
      end
  | PList l =>
      match norm_index (length l) i with
      | Some n => match l !! n with
                  | Some x => Ok x
                  | None => Raise (IndexError "list index out of range")
                  end
      | None => Raise (IndexError "list index out of range")
      end
  | PStr s =>
      match norm_index (String.length s) i with
      | Some n => Ok (PStr (String.substring n 1 s))
      | None => Raise (IndexError "string index out of range")
      end
  | PDict l =>
      match dict_get l i with
      | Some x => Ok x
      | None => Raise (KeyError "key not found")
      end
  | PNone => Raise (TypeError "'NoneType' object is not subscriptable")
  | PBool _ => Raise (TypeError "'bool' object is not subscriptable")
  | PInt _ => Raise (TypeError "'int' object is not subscriptable")
  | PFloat _ => Raise (TypeError "'float' object is not subscriptable")
  end.

(** ** Objects the module is handed or creates *)

(** An object supplied from outside is known by a name and by what
    [dir()] lists on it. *)
Record pyobj : Type := { obj_name : string; obj_dir : list string }.

(** ['attr' in dir(o)] *)
Definition in_dir (attr : string) (o : pyobj) : bool :=
  existsb (String.eqb attr) (obj_dir o).

(** What [self._conclass] can hold: [tarantool.Connection] or a
    substituted class. *)
Inductive conclass : Type :=
| TarantoolConnection
| CustomClass (o : pyobj).

(** What [self._lockinst] can hold: an instance made by
    [threading.Lock()] or a substituted object. *)
Inductive lockinst : Type :=
| ThreadingLock (n : nat)
| CustomLock (o : pyobj).

(** class Lock(object) *)
Record Lock : Type := {
  locksmith : loc;
  name : pyval;
  uid : pyval
}.

(** The attributes [Locksmith.__init__] sets on [self]. *)
Record Locksmith : Type := {
  host : pyval;
  port : pyval;
  user : pyval;
  password : pyval;
  timeout : pyval;
  tubes : list (pyval * pyval);
  _lockinst : option lockinst;
  _conclass : option conclass;
  _tnt : option conn
}.

Definition with_lockinst (v : option lockinst) (s : Locksmith) : Locksmith :=
  {| host := host s; port := port s; user := user s; password := password s;
     timeout := timeout s; tubes := tubes s;
     _lockinst := v; _conclass := _conclass s; _tnt := _tnt s |}.

Definition with_conclass (v : option conclass) (s : Locksmith) : Locksmith :=
  {| host := host s; port := port s; user := user s; password := password s;
     timeout := timeout s; tubes := tubes s;
     _lockinst := _lockinst s; _conclass := v; _tnt := _tnt s |}.

Definition with_tnt (v : option conn) (s : Locksmith) : Locksmith :=
  {| host := host s; port := port s; user := user s; password := password s;
     timeout := timeout s; tubes := tubes s;
     _lockinst := _lockinst s; _conclass := _conclass s; _tnt := v |}.

Inductive object : Type :=
| OLocksmith (s : Locksmith)
| OLock (l : Lock).

(** ** The world: heap, identity counter and interaction trace *)

(** Every interaction with code outside the module, with its outcome:
    entering and leaving the lock of a [with] block, instantiating the
    connection class, and a [call] on the connection. *)
Inductive event : Type :=
| EvEnter (lk : lockinst) (r : option exn)
| EvExit (lk : lockinst) (exc : option exn) (r : result bool)
| EvInit (cls : conclass) (host port user password socket_timeout : pyval)
         (r : result conn)
| EvCall (c : conn) (func : string) (args : list pyval) (r : result pyval).

Record World : Type := {
  heap : gmap nat object;
  next_id : nat;
  trace : list event
}.

(** How the outside answers, given the history so far.  [ext_init] says
    whether instantiating a connection class raises; [ext_call] is the
    reply to [connection.call(func, *args)]; [ext_enter] and [ext_exit]
    are the [__enter__] and [__exit__] of a substituted lock object
    ([__exit__] gets the pending exception and says whether to swallow
    it). *)
Record Extern : Type := {
  ext_init : list event -> conclass ->
             pyval -> pyval -> pyval -> pyval -> pyval -> option exn;
  ext_call : list event -> conn -> string -> list pyval -> result pyval;
  ext_enter : list event -> pyobj -> option exn;
  ext_exit : list event -> pyobj -> option exn -> result bool
}.

(** ** The monad: state that survives a raised exception *)

Definition M (A : Type) : Type := World -> result A * World.

#[export] Instance M_ret : MRet M := fun A a w => (Ok a, w).

#[export] Instance M_bind : MBind M := fun A B f m w =>
  match m w with
  | (Ok a, w') => f a w'
  | (Raise e, w') => (Raise e, w')
  end.

Definition raise {A : Type} (e : exn) : M A := fun w => (Raise e, w).

Definition lift {A : Type} (r : result A) : M A := fun w => (r, w).

(** Run [m] and hand back its outcome instead of propagating it. *)
Definition catch {A : Type} (m : M A) : M (result A) :=
  fun w => let '(r, w') := m w in (Ok r, w').

Definition log (e : event) : M unit := fun w =>
  (Ok tt, {| heap := heap w; next_id := next_id w; trace := trace w ++ [e] |}).

Definition fresh : M nat := fun w =>
  (Ok (next_id w),
   {| heap := heap w; next_id := S (next_id w); trace := trace w |}).

Definition store (l : loc) (o : object) : M unit := fun w =>
  (Ok tt, {| heap := <[l := o]> (heap w); next_id := next_id w;
             trace := trace w |}).

Definition alloc (o : object) : M loc :=
  l ← fresh; store l o;; mret l.

(** Reading the attributes of [self]; an object of another class has
    none of them. *)
Definition read_locksmith (self : loc) : M Locksmith := fun w =>
  match heap w !! self with
  | Some (OLocksmith s) => (Ok s, w)
  | _ => (Raise (AttributeError "object has no such attribute"), w)
  end.

Definition read_lock (self : loc) : M Lock := fun w =>
  match heap w !! self with
  | Some (OLock l) => (Ok l, w)
  | _ => (Raise (AttributeError "object has no such attribute"), w)
  end.

(** [self.attr = v] on a coordinator. *)
Definition update_locksmith (self : loc) (f : Locksmith -> Locksmith) : M unit :=
  s ← read_locksmith self; store self (OLocksmith (f s)).

Definition history : M (list event) := fun w => (Ok (trace w), w).

(** ** Class namespaces *)

Inductive pyclass : Type := ClsLock | ClsLocksmith.

Inductive member : Type :=
| Method
| Property
| ExceptionClass (mk : string -> exn).

Definition class_name (c : pyclass) : string :=
  match c with ClsLock => "Lock" | ClsLocksmith => "Locksmith" end.

(** The names bound in each class body, in source order. *)
Definition class_body (c : pyclass) : list (string * member) :=
  match c with
  | ClsLock =>
      [("__init__", Method); ("__repr__", Method);
       ("update", Method); ("release", Method)]
  | ClsLocksmith =>
      [("DatabaseError", ExceptionClass DatabaseError);
       ("NetworkError", ExceptionClass NetworkError);
       ("BadConfigException", ExceptionClass BadConfigException);
       ("ZeroTupleException", ExceptionClass ZeroTupleException);
       ("BadTupleException", ExceptionClass BadTupleException);
       ("__init__", Method);
       ("tarantool_connection", Property);
       ("tarantool_lock", Property);
       ("tnt", Property);
       ("acquire", Method); ("update", Method);
       ("release", Method); ("statistics", Method)]
  end.

(** [C.attr] on a class object.  Both classes derive from [object],
    which adds only double-underscore names. *)
Definition class_getattr (c : pyclass) (attr : string) : M member :=
  match find (fun p => String.eqb attr (fst p)) (class_body c) with
  | Some (_, m) => mret m
  | None =>
      raise (AttributeError ("type object '" +:+ class_name c +:+
                             "' has no attribute '" +:+ attr +:+ "'"))
  end.

(** [raise C.attr(msg)]: the attribute is looked up first. *)
Definition raise_from {A : Type} (c : pyclass) (attr msg : string) : M A :=
  m ← class_getattr c attr;
  match m with
  | ExceptionClass mk => raise (mk msg)
  | _ => raise (TypeError "exceptions must derive from BaseException")
  end.

(** ** The two classes *)

Section Classes.

Variable ext : Extern.

(** [threading.Lock()]: a new lock object each time. *)
Definition threading_Lock : M lockinst :=
  n ← fresh; mret (ThreadingLock n).

(** What [lk.__enter__()] does after history [tr]: a [threading.Lock]
    that nobody holds is simply taken. *)
Definition enter_result (tr : list event) (lk : lockinst) : option exn :=
  match lk with
  | ThreadingLock _ => None
  | CustomLock o => ext_enter ext tr o
  end.

(** What [lk.__exit__(...)] answers: whether a pending exception is
    swallowed.  [threading.Lock] releases and answers [None]. *)
Definition exit_result (tr : list event) (lk : lockinst) (exc : option exn)
  : result bool :=
  match lk with
  | ThreadingLock _ => Ok false
  | CustomLock o => ext_exit ext tr o exc
  end.

Definition lock_enter (lk : lockinst) : M unit :=
  tr ← history;
  let r := enter_result tr lk in
  log (EvEnter lk r);;
  match r with
  | None => mret tt
  | Some e => raise e
  end.

Definition lock_exit (lk : lockinst) (exc : option exn) : M bool :=
  tr ← history;
  let r := exit_result tr lk exc in
  log (EvExit lk exc r);;
  lift r.

(** [with lk: body] *)
Definition with_ (lk : lockinst) (body : M unit) : M unit :=
  lock_enter lk;;
  r ← catch body;
  match r with
  | Ok _ => lock_exit lk None;; mret tt
  | Raise e =>
      swallow ← lock_exit lk (Some e);
      if swallow : bool then mret tt else raise e
  end.

(** [cls(host, port, user=..., password=..., socket_timeout=...)] *)
Definition instantiate (cls : conclass) (h p u pw t : pyval) : M conn :=
  tr ← history;
  match ext_init ext tr cls h p u pw t with
  | Some e => log (EvInit cls h p u pw t (Raise e));; raise e
  | None => c ← fresh; log (EvInit cls h p u pw t (Ok c));; mret c
  end.

(** [c.call(func, *args)] on whatever the [tnt] property returned. *)
Definition call (c : option conn) (func : string) (args : list pyval)
  : M pyval :=
  match c with
  | None => raise (AttributeError "'NoneType' object has no attribute 'call'")
  | Some c =>
      tr ← history;
      let r := ext_call ext tr c func args in
      log (EvCall c func args r);;
      lift r
  end.

(** *** class Locksmith *)

Definition default_host : pyval := PStr "localhost".
Definition default_port : pyval := PInt 33013.
Definition default_timeout : pyval := PFloat 1.

(** [Locksmith(host, port, user, password, timeout)] *)
Definition Locksmith_init (host port user password timeout : pyval) : M loc :=
  (if negb (truthy host) || negb (truthy port)
   then raise_from ClsLock "BadConfigException"
                   "Host and port params must be not empty"
   else mret tt);;
  (if negb (isinstance_int port)
   then raise_from ClsLock "BadConfigException" "Port must be int"
   else mret tt);;
  lk ← threading_Lock;
  alloc (OLocksmith
           {| host := host; port := port; user := user;
              password := password; timeout := timeout; tubes := [];
              _lockinst := Some lk;
              _conclass := Some TarantoolConnection;
              _tnt := None |}).

(** property [tarantool_connection], getter *)
Definition Locksmith_tarantool_connection (self : loc) : M conclass :=
  s ← read_locksmith self;
  match _conclass s with
  | None =>
      update_locksmith self (with_conclass (Some TarantoolConnection));;
      mret TarantoolConnection
  | Some cls => mret cls
  end.

(** property [tarantool_connection], setter *)
Definition Locksmith_set_tarantool_connection
  (self : loc) (con_cls : option pyobj) : M unit :=
  match con_cls with
  | None => update_locksmith self (with_conclass (Some TarantoolConnection))
  | Some o =>
      if in_dir "call" o && in_dir "__init__" o
      then update_locksmith self (with_conclass (Some (CustomClass o)))
      else raise (TypeError
                    "Connection class must have connect and call methods or be None")
  end;;
  update_locksmith self (with_tnt None).

(** property [tarantool_lock], getter *)
Definition Locksmith_tarantool_lock (self : loc) : M lockinst :=
  s ← read_locksmith self;
  match _lockinst s with
  | None =>
      lk ← threading_Lock;
      update_locksmith self (with_lockinst (Some lk));;
      mret lk
  | Some lk => mret lk
  end.

(** property [tarantool_lock], setter *)
Definition Locksmith_set_tarantool_lock
  (self : loc) (lock : option pyobj) : M unit :=
  match lock with
  | None =>
      lk ← threading_Lock;
      update_locksmith self (with_lockinst (Some lk))
  | Some o =>
      if in_dir "__enter__" o && in_dir "__exit__" o
      then update_locksmith self (with_lockinst (Some (CustomLock o)))
      else raise (TypeError
                    "Lock class must have `__enter__` and `__exit__` methods or be None")
  end.

(** property [tnt]: get or create the connection *)
Definition Locksmith_tnt (self : loc) : M (option conn) :=
  s ← read_locksmith self;
  match _tnt s with
  | None =>
      lk ← Locksmith_tarantool_lock self;
      with_ lk
        (s1 ← read_locksmith self;
         match _tnt s1 with
         | None =>
             cls ← Locksmith_tarantool_connection self;
             s2 ← read_locksmith self;
             c ← instantiate cls (host s2) (port s2) (user s2)
                             (password s2) (timeout s2);
             update_locksmith self (with_tnt (Some c))
         | Some _ => mret tt
         end)
  | Some _ => mret tt
  end;;
  s3 ← read_locksmith self;
  mret (_tnt s3).

(** [Lock(locksmith, name, uid)] *)
Definition Lock_init (locksmith : loc) (name uid : pyval) : M loc :=
  alloc (OLock {| locksmith := locksmith; name := name; uid := uid |}).

(** The local [args] of [acquire]: [(lock_name, validity)], extended by
    [(timeout,)] when [timeout is not None]. *)
Definition acquire_args (lock_name validity timeout : pyval) : list pyval :=
  let args := [lock_name; validity] in
  if is_not_None timeout then (args ++ [timeout])%list else args.

(** [Locksmith.acquire(lock_name, validity, timeout=None)]; falling off
    the end of the function returns [None]. *)
Definition Locksmith_acquire
  (self : loc) (lock_name validity timeout : pyval) : M (option loc) :=
  c ← Locksmith_tnt self;
  reply ← call c "locksmith:acquire"
               [PTuple (acquire_args lock_name validity timeout)];
  the_tuple ← lift (getitem reply 0);
  ok ← lift (getitem the_tuple 0);
  if is_not_None ok then
    n ← lift (getitem the_tuple 1);
    u ← lift (getitem the_tuple 2);
    l ← Lock_init self n u;
    mret (Some l)
  else mret None.

(** [Locksmith.update(lock_uid, validity)] *)
Definition Locksmith_update (self : loc) (lock_uid validity : pyval) : M bool :=
  c ← Locksmith_tnt self;
  reply ← call c "locksmith:update" [PTuple [lock_uid; validity]];
  the_tuple ← lift (getitem reply 0);
  ok ← lift (getitem the_tuple 0);
  mret (is_not_None ok).

(** [Locksmith.release(lock_uid)] *)
Definition Locksmith_release (self : loc) (lock_uid : pyval) : M bool :=
  c ← Locksmith_tnt self;
  reply ← call c "locksmith:release" [PTuple [lock_uid]];
  the_tuple ← lift (getitem reply 0);
  ok ← lift (getitem the_tuple 0);
  mret (is_not_None ok).

(** [Locksmith.statistics()] *)
Definition Locksmith_statistics (self : loc) : M pyval :=
  c ← Locksmith_tnt self;
  reply ← call c "locksmith:statistics" [];
  the_tuple ← lift (getitem reply 0);
  lift (getitem the_tuple 0).

(** *** class Lock *)

(** [Lock.update(validity)] *)
Definition Lock_update (self : loc) (validity : pyval) : M bool :=
  l ← read_lock self;
  Locksmith_update (locksmith l) (uid l) validity.

(** [Lock.release()] *)
Definition Lock_release (self : loc) : M bool :=
  l ← read_lock self;
  Locksmith_release (locksmith l) (uid l).

(** [n] accesses to the [tnt] property in a row, whatever each one
    does. *)
Fixpoint tnt_accesses (n : nat) (self : loc) : M unit :=
  match n with
  | O => mret tt
  | S n' => catch (Locksmith_tnt self);; tnt_accesses n' self
  end.

(** *** Client programs

    Whatever a caller can do with the two classes, one statement at a
    time; an exception ends the statement, not the program. *)
Inductive op : Type :=
| OpInit (host port user password timeout : pyval)
| OpGetConnection (self : loc)
| OpSetConnection (self : loc) (con_cls : option pyobj)
| OpGetLock (self : loc)
| OpSetLock (self : loc) (lock : option pyobj)
| OpTnt (self : loc)
| OpAcquire (self : loc) (lock_name validity timeout : pyval)
| OpUpdate (self : loc) (lock_uid validity : pyval)
| OpRelease (self : loc) (lock_uid : pyval)
| OpStatistics (self : loc)
| OpLockUpdate (h : loc) (validity : pyval)
| OpLockRelease (h : loc).

Definition perform (o : op) : M unit :=
  match o with
  | OpInit h p u pw t => catch (Locksmith_init h p u pw t);; mret tt
  | OpGetConnection self => catch (Locksmith_tarantool_connection self);; mret tt
  | OpSetConnection self v =>
      catch (Locksmith_set_tarantool_connection self v);; mret tt
  | OpGetLock self => catch (Locksmith_tarantool_lock self);; mret tt
  | OpSetLock self v => catch (Locksmith_set_tarantool_lock self v);; mret tt
  | OpTnt self => catch (Locksmith_tnt self);; mret tt
  | OpAcquire self n v t => catch (Locksmith_acquire self n v t);; mret tt
  | OpUpdate self u v => catch (Locksmith_update self u v);; mret tt
  | OpRelease self u => catch (Locksmith_release self u);; mret tt
  | OpStatistics self => catch (Locksmith_statistics self);; mret tt
  | OpLockUpdate h v => catch (Lock_update h v);; mret tt
  | OpLockRelease h => catch (Lock_release h);; mret tt
  end.

Fixpoint perform_all (ops : list op) : M unit :=
  match ops with
  | [] => mret tt
  | o :: ops' => perform o;; perform_all ops'
  end.

End Classes.

(** Channels that were actually built, in order. *)
Fixpoint constructed (tr : list event) : list conn :=
  match tr with
  | [] => []
  | EvInit _ _ _ _ _ _ (Ok c) :: tr' => c :: constructed tr'
  | _ :: tr' => constructed tr'
  end.

(** The coordinator object at [self], if there is one. *)
Definition locksmith_at (w : World) (self : loc) : option Locksmith :=
  match heap w !! self with
  | Some (OLocksmith s) => Some s
  | _ => None
  end.

Definition lock_at (w : World) (self : loc) : option Lock :=
  match heap w !! self with
  | Some (OLock l) => Some l
  | _ => None
  end.

(** The connection settings of a coordinator. *)
Definition settings (s : Locksmith) : pyval * pyval * pyval * pyval * pyval :=
  (host s, port s, user s, password s, timeout s).

(** Every object in the heap got its address from the counter. *)
Definition wf (w : World) : Prop :=
  ∀ l o, heap w !! l = Some o → (l < next_id w)%nat.

(** A handle stays what it is. *)
Definition handle_is (h : loc) (l : Lock) (w : World) : Prop :=
  lock_at w h = Some l.

(** A coordinator keeps its connection settings. *)
Definition configured (self : loc) (cfg : pyval * pyval * pyval * pyval * pyval)
  (w : World) : Prop :=
  wf w ∧ ∃ s, locksmith_at w self = Some s ∧ settings s = cfg.

(** A computation keeps an invariant of the world, however it ends. *)
Definition preserves {A : Type} (I : World → Prop) (m : M A) : Prop :=
  ∀ w, I w → I (snd (m w)).

(** The world after one more logged interaction. *)
Definition logged (w : World) (e : event) : World :=
  {| heap := heap w; next_id := next_id w; trace := trace w ++ [e] |}.

(** The interactions of a first use of the channel that goes well: the
    lock is entered, the class is instantiated and yields [c], the lock
    is left. *)
Definition first_use (lk : lockinst) (cls : conclass) (s : Locksmith)
  (c : conn) (b : bool) : list event :=
  [EvEnter lk None;
   EvInit cls (host s) (port s) (user s) (password s) (timeout s) (Ok c);
   EvExit lk None (Ok b)].

(** The outside lets such a first use go well after history [tr]. *)
Definition opens_cleanly (ext : Extern) (tr : list event) (lk : lockinst)
  (cls : conclass) (s : Locksmith) (c : conn) (b : bool) : Prop :=
  enter_result ext tr lk = None ∧
  ext_init ext (tr ++ [EvEnter lk None]) cls
           (host s) (port s) (user s) (password s) (timeout s) = None ∧
  exit_result ext
    (tr ++ [EvEnter lk None;
            EvInit cls (host s) (port s) (user s) (password s) (timeout s)
                   (Ok c)])
    lk None = Ok b.

(** What the two setters accept, and what they then store. *)
Definition accepted_class (v : option pyobj) : bool :=
  match v with
  | None => true
  | Some o => in_dir "call" o && in_dir "__init__" o
  end.

Definition class_of (v : option pyobj) : conclass :=
  match v with None => TarantoolConnection | Some o => CustomClass o end.

Definition accepted_lock (v : option pyobj) : bool :=
  match v with
  | None => true
  | Some o => in_dir "__enter__" o && in_dir "__exit__" o
  end.

Definition empty_world : World :=
  {| heap := ∅; next_id := 0; trace := [] |}.

(** ** A simulated authority, for running the model

    One name can be held at a time; the lease handed out is ["lease-1"].
    The authority grants [locksmith:acquire] when no earlier acquire was
    granted, and honours [update]/[release] for that lease until it is
    released. *)

Definition granted (e : event) : bool :=
  match e with
  | EvCall _ "locksmith:acquire" _ (Ok (PList [PTuple (PStr _ :: _)])) => true
  | _ => false
  end.

Definition released (e : event) : bool :=
  match e with
  | EvCall _ "locksmith:release" _ (Ok (PList [PTuple [PStr _]])) => true
  | _ => false
  end.

Definition held (tr : list event) : bool :=
  existsb granted tr && negb (existsb released tr).

Definition sim_call (tr : list event) (c : conn) (func : string)
  (args : list pyval) : result pyval :=
  match func, args with
  | "locksmith:acquire", [PTuple (n :: _)] =>
      if held tr
      then Ok (PList [PTuple [PNone]])
      else Ok (PList [PTuple [PStr "lease-1"; n; PStr "lease-1"]])
  | "locksmith:update", [PTuple [PStr "lease-1"; _]]
  | "locksmith:release", [PTuple [PStr "lease-1"]] =>
      if held tr
      then Ok (PList [PTuple [PStr "lease-1"]])
      else Ok (PList [PTuple [PNone]])
  | "locksmith:update", _ | "locksmith:release", _ =>
      Ok (PList [PTuple [PNone]])
  | "locksmith:statistics", [] =>
      Ok (PList [PTuple [PDict [(PStr "held", PBool (held tr))]]])
  | _, _ => Raise (DatabaseError "Procedure is not defined")
  end.

Definition sim : Extern :=
  {| ext_init := fun _ _ _ _ _ _ _ => None;
     ext_call := sim_call;
     ext_enter := fun _ _ => None;
     ext_exit := fun _ _ _ => Ok false |}.

(** A world with one coordinator at address 1, built as
    [Locksmith('127.0.0.1', 33013, user='test', password='test')]. *)
Definition demo_world : World :=
  snd (Locksmith_init (PStr "127.0.0.1") (PInt 33013)
                      (PStr "test") (PStr "test") default_timeout
                      empty_world).

Definition demo_coordinator : Locksmith :=
  {| host := PStr "127.0.0.1"; port := PInt 33013;
     user := PStr "test"; password := PStr "test"; timeout := default_timeout;
     tubes := [];
     _lockinst := Some (ThreadingLock 0);
     _conclass := Some TarantoolConnection;
     _tnt := None |}.

(** The same world after the first use of the channel (connection 2). *)
Definition connected_world : World := snd (Locksmith_tnt sim 1 demo_world).

(** ... and after [locksmith.acquire('foo', validity=60)], which puts the
    handle at address 3. *)
Definition held_world : World :=
  snd (Locksmith_acquire sim 1 (PStr "foo") (PInt 60) PNone demo_world).

Definition foo_tuple : pyval :=
  PTuple [PStr "lease-1"; PStr "foo"; PStr "lease-1"].

(** A world whose coordinator has both substitution points unset. *)
Definition unset_world : World :=
  {| heap := {[ 1 := OLocksmith
                       (with_conclass None (with_lockinst None demo_coordinator)) ]};
     next_id := 2; trace := [] |}.

(** Substitutes: a connection class that can [call], a lock with scoped
    enter and exit, and an object with neither capability. *)
Definition FakeConnection : pyobj :=
  {| obj_name := "FakeConnection"; obj_dir := ["__init__"; "call"] |}.

Definition an_rlock : pyobj :=
  {| obj_name := "threading.RLock()";
     obj_dir := ["__enter__"; "__exit__"; "acquire"; "release"] |}.

Definition plain_object : pyobj :=
  {| obj_name := "object()"; obj_dir := ["__init__"; "__repr__"] |}.

(** ** Entry points and what comes out of them *)

(** One statement of a client program, uncaught: what it raises reaches
    the caller. *)
Definition invoke (ext : Extern) (o : op) : M unit :=
  match o with
  | OpInit h p u pw t => Locksmith_init h p u pw t;; mret tt
  | OpGetConnection self => Locksmith_tarantool_connection self;; mret tt
  | OpSetConnection self v => Locksmith_set_tarantool_connection self v
  | OpGetLock self => Locksmith_tarantool_lock self;; mret tt
  | OpSetLock self v => Locksmith_set_tarantool_lock self v
  | OpTnt self => Locksmith_tnt ext self;; mret tt
  | OpAcquire self n v t => Locksmith_acquire ext self n v t;; mret tt
  | OpUpdate self u v => Locksmith_update ext self u v;; mret tt
  | OpRelease self u => Locksmith_release ext self u;; mret tt
  | OpStatistics self => Locksmith_statistics ext self;; mret tt
  | OpLockUpdate h v => Lock_update ext h v;; mret tt
  | OpLockRelease h => Lock_release ext h;; mret tt
  end.

(** The exception classes declared in the body of [Locksmith]. *)
Definition own_exception (e : exn) : bool :=
  match e with
  | BadConfigException _ | ZeroTupleException _ | BadTupleException _ => true
  | _ => false
  end.

(** Every exception a computation can raise satisfies [P]. *)
Definition raises_only {A : Type} (P : exn → Prop) (m : M A) : Prop :=
  ∀ w e w', m w = (Raise e, w') → P e.

(** The outside never raises one of the module's own exception classes. *)
Definition foreign (ext : Extern) : Prop :=
  (∀ tr cls h p u pw t e,
      ext_init ext tr cls h p u pw t = Some e → own_exception e = false) ∧
  (∀ tr c f args e,
      ext_call ext tr c f args = Raise e → own_exception e = false) ∧
  (∀ tr o e, ext_enter ext tr o = Some e → own_exception e = false) ∧
  (∀ tr o exc e, ext_exit ext tr o exc = Raise e → own_exception e = false).

(** The constructor's test on its arguments. *)
Definition valid_config (host port : pyval) : bool :=
  truthy host && truthy port && isinstance_int port.

(** The interactions of a first use on which the class cannot be
    instantiated: the lock is entered, the constructor raises [e], the
    lock is left with [e] pending and answers [swallow]. *)
Definition failed_use (lk : lockinst) (cls : conclass) (s : Locksmith)
  (e : exn) (swallow : bool) : list event :=
  [EvEnter lk None;
   EvInit cls (host s) (port s) (user s) (password s) (timeout s) (Raise e);
   EvExit lk (Some e) (Ok swallow)].

(** The outside makes a first use fail that way after history [tr]. *)
Definition fails_to_open (ext : Extern) (tr : list event) (lk : lockinst)
  (cls : conclass) (s : Locksmith) (e : exn) (swallow : bool) : Prop :=
  enter_result ext tr lk = None ∧
  ext_init ext (tr ++ [EvEnter lk None]) cls
           (host s) (port s) (user s) (password s) (timeout s) = Some e ∧
  exit_result ext
    (tr ++ [EvEnter lk None;
            EvInit cls (host s) (port s) (user s) (password s) (timeout s)
                   (Raise e)])
    lk (Some e) = Ok swallow.

(** The world after some more logged interactions. *)
Definition logged_all (w : World) (es : list event) : World :=
  {| heap := heap w; next_id := next_id w; trace := trace w ++ es |}.

(** More outsides to run the model against: a server that refuses the
    connection, the same behind a lock object that swallows exceptions,
    a channel that breaks on every call, and a server that answers every
    call with an empty reply. *)
Definition unreachable : Extern :=
  {| ext_init := fun _ _ _ _ _ _ _ => Some (NetworkError "Connection refused");
     ext_call := sim_call;
     ext_enter := fun _ _ => None;
     ext_exit := fun _ _ _ => Ok false |}.

Definition swallowing : Extern :=
  {| ext_init := fun _ _ _ _ _ _ _ => Some (NetworkError "Connection refused");
     ext_call := sim_call;
     ext_enter := fun _ _ => None;
     ext_exit := fun _ _ _ => Ok true |}.

Definition a_suppressing_lock : pyobj :=
  {| obj_name := "contextlib.suppress(Exception)";
     obj_dir := ["__enter__"; "__exit__"] |}.

Definition suppressed_world : World :=
  snd (Locksmith_set_tarantool_lock 1 (Some a_suppressing_lock) demo_world).

Definition broken_pipe : Extern :=
  {| ext_init := fun _ _ _ _ _ _ _ => None;
     ext_call := fun _ _ _ _ => Raise (NetworkError "Broken pipe");
     ext_enter := fun _ _ => None;
     ext_exit := fun _ _ _ => Ok false |}.


(** A handle stays what it is, in a heap that stays well formed. *)
Definition handle_kept (h : loc) (l : Lock) (w : World) : Prop :=
  wf w ∧ lock_at w h = Some l.

(** A computation that raises none of the module's own exceptions. *)
Definition clean {A : Type} (m : M A) : Prop :=
  raises_only (λ e, own_exception e = false) m.

(** Two client programs: the one that leads from the empty world to
    [held_world], and one that goes on from there. *)
Definition opening_program : list op :=
  [OpInit (PStr "127.0.0.1") (PInt 33013) (PStr "test") (PStr "test")
          default_timeout;
   OpAcquire 1 (PStr "foo") (PInt 60) PNone].

Definition later_program : list op :=
  [OpLockUpdate 3 (PInt 30);
   OpSetConnection 1 (Some FakeConnection);
   OpSetLock 1 (Some an_rlock);
   OpAcquire 1 (PStr "bar") (PInt 1) (PInt 0);
   OpLockRelease 3;
   OpInit default_host default_port PNone PNone default_timeout;
   OpStatistics 1].

(** A race of two threads, stopped while thread 0 is about to call the
    constructor and thread 1 waits for the lock. *)
Definition mid_race : list (nat * option exn) :=
  [(0%nat, None); (1%nat, None); (0%nat, None); (1%nat, None); (0%nat, None)].

(** ** Threads reading the [tnt] property at once

    The property body, statement by statement, for threads that share one
    coordinator whose lock is the [threading.Lock] made by [__init__].
    Reading and writing [self._tnt] are single steps. *)

Module Threads.

(** Where a thread stands: before the outer test, waiting to enter the
    [with] block, before the inner test, before the constructor call,
    before the assignment of its result, leaving the [with] block (with a
    pending exception or none), before [return self._tnt], and done. *)
Inductive pc : Type :=
| AtCheck
| AtEnter
| AtRecheck
| AtConstruct
| AtAssign (c : conn)
| AtExit (exc : option exn)
| AtReturn
| Returned (r : result (option conn)).

Record state : Type := {
  st_tnt : option conn;
  st_held : bool;
  st_built : list conn;
  st_next : nat;
  st_pcs : list pc
}.

(** Positions inside the [with] block. *)
Definition in_with (p : pc) : bool :=
  match p with
  | AtRecheck | AtConstruct | AtAssign _ | AtExit _ => true
  | _ => false
  end.

Definition goto (i : nat) (p : pc) (st : state) : state :=
  {| st_tnt := st_tnt st; st_held := st_held st; st_built := st_built st;
     st_next := st_next st; st_pcs := <[i := p]> (st_pcs st) |}.

Definition set_held (b : bool) (st : state) : state :=
  {| st_tnt := st_tnt st; st_held := b; st_built := st_built st;
     st_next := st_next st; st_pcs := st_pcs st |}.

Definition set_tnt (c : conn) (st : state) : state :=
  {| st_tnt := Some c; st_held := st_held st; st_built := st_built st;
     st_next := st_next st; st_pcs := st_pcs st |}.

Definition build (st : state) : state :=
  {| st_tnt := st_tnt st; st_held := st_held st;
     st_built := st_built st ++ [st_next st];
     st_next := S (st_next st); st_pcs := st_pcs st |}.

(** One step of thread [i]; [fail] is what the constructor raises if the
    step is the constructor call.  A thread waiting for a held lock, or a
    thread that has returned, cannot move. *)
Definition step (fail : option exn) (i : nat) (st : state) : option state :=
  match st_pcs st !! i with
  | None => None
  | Some AtCheck =>
      Some (goto i (match st_tnt st with
                    | None => AtEnter
                    | Some _ => AtReturn
                    end) st)
  | Some AtEnter =>
      if st_held st then None
      else Some (goto i AtRecheck (set_held true st))
  | Some AtRecheck =>
      Some (goto i (match st_tnt st with
                    | None => AtConstruct
                    | Some _ => AtExit None
                    end) st)
  | Some AtConstruct =>
      match fail with
      | Some e => Some (goto i (AtExit (Some e)) st)
      | None => Some (goto i (AtAssign (st_next st)) (build st))
      end
  | Some (AtAssign c) => Some (goto i (AtExit None) (set_tnt c st))
  | Some (AtExit exc) =>
      Some (goto i (match exc with
                    | None => AtReturn
                    | Some e => Returned (Raise e)
                    end) (set_held false st))
  | Some AtReturn => Some (goto i (Returned (Ok (st_tnt st))) st)
  | Some (Returned _) => None
  end.

(** A schedule names, step by step, the thread that moves. *)
Fixpoint run (sched : list (nat * option exn)) (st : state) : state :=
  match sched with
  | [] => st
  | (i, fail) :: rest =>
      match step fail i st with
      | Some st' => run rest st'
      | None => run rest st
      end
  end.

Definition start (n : nat) : state :=
  {| st_tnt := None; st_held := false; st_built := []; st_next := 0;
     st_pcs := replicate n AtCheck |}.

(** How many threads are inside the [with] block. *)
Definition inside (ps : list pc) : nat :=
  length (filter (λ p, in_with p = true) ps).

Record inv (st : state) : Prop := {
  inv_excl : inside (st_pcs st) = if st_held st then 1%nat else 0%nat;
  inv_construct : ∀ i, st_pcs st !! i = Some AtConstruct →
                       st_tnt st = None ∧ st_built st = [];
  inv_assign : ∀ i c, st_pcs st !! i = Some (AtAssign c) →
                      st_tnt st = None ∧ st_built st = [c];
  inv_unset : st_tnt st = None →
              st_built st = [] ∨ ∃ i c, st_pcs st !! i = Some (AtAssign c);
  inv_set : ∀ c, st_tnt st = Some c → st_built st = [c];
  inv_after : ∀ i, st_pcs st !! i = Some AtReturn ∨
                   st_pcs st !! i = Some (AtExit None) →
                   st_tnt st ≠ None;
  inv_returned : ∀ i r, st_pcs st !! i = Some (Returned (Ok r)) →
                        r = st_tnt st ∧ st_tnt st ≠ None
}.

End Threads.

(** * Properties *)

Ltac unfold_monad :=
  unfold alloc in *;
  unfold mbind, mret, M_bind, M_ret, raise, lift, catch, log, fresh, store,
    history in *.

(** ** Invariants kept by every method *)

Create HintDb frame.

Section Preservation.

Context (ext : Extern) (I : World → Prop).

Lemma preserves_ret {A : Type} (a : A) : preserves I (mret a).
Proof. intros w H. exact H. Qed.

Lemma preserves_raise {A : Type} (e : exn) : preserves I (@raise A e).
Proof. intros w H. exact H. Qed.

Lemma preserves_lift {A : Type} (r : result A) : preserves I (lift r).
Proof. intros w H. exact H. Qed.

Lemma preserves_history : preserves I history.
Proof. intros w H. exact H. Qed.

Lemma preserves_bind {A B : Type} (m : M A) (f : A → M B) :
  preserves I m → (∀ a, preserves I (f a)) → preserves I (m ≫= f).
Proof.
  intros Hm Hf w H. unfold mbind, M_bind.
  specialize (Hm w H). destruct (m w) as [[a|e] w']; simpl in *.
  - apply Hf. exact Hm.
  - exact Hm.
Qed.

Lemma preserves_catch {A : Type} (m : M A) :
  preserves I m → preserves I (catch m).
Proof.
  intros Hm w H. unfold catch. specialize (Hm w H).
  destruct (m w) as [r w']. exact Hm.
Qed.

Lemma preserves_read_locksmith (self : loc) : preserves I (read_locksmith self).
Proof.
  intros w H. unfold read_locksmith.
  destruct (heap w !! self) as [[s|l]|]; exact H.
Qed.

Lemma preserves_read_lock (self : loc) : preserves I (read_lock self).
Proof.
  intros w H. unfold read_lock.
  destruct (heap w !! self) as [[s|l]|]; exact H.
Qed.

Lemma preserves_class_getattr (c : pyclass) (attr : string) :
  preserves I (class_getattr c attr).
Proof.
  intros w H. unfold class_getattr.
  destruct (find _ _) as [[x m]|]; exact H.
Qed.

#[local] Hint Resolve preserves_ret preserves_raise preserves_lift
  preserves_history preserves_read_locksmith preserves_read_lock
  preserves_class_getattr : frame.

Ltac frame :=
  repeat first
    [ solve [auto with frame]
    | apply preserves_catch
    | apply preserves_bind; [|intros ?]
    | match goal with
      | |- preserves _ (match ?x with _ => _ end) => destruct x
      | |- preserves _ (if ?x then _ else _) => destruct x
      | |- preserves _ (let _ := _ in _) => cbv zeta
      end ].

(** What the invariant has to withstand: a logged interaction, a number
    drawn from the counter, an assignment to one of the three attributes
    that methods assign, and the creation of a handle. *)
Hypothesis I_log : ∀ e, preserves I (log e).
Hypothesis I_fresh : preserves I fresh.
Hypothesis I_lockinst : ∀ self v, preserves I (update_locksmith self (with_lockinst v)).
Hypothesis I_conclass : ∀ self v, preserves I (update_locksmith self (with_conclass v)).
Hypothesis I_tnt : ∀ self v, preserves I (update_locksmith self (with_tnt v)).
Hypothesis I_alloc : ∀ o, preserves I (alloc o).

Lemma preserves_tarantool_connection (self : loc) :
  preserves I (Locksmith_tarantool_connection self).
Proof. unfold Locksmith_tarantool_connection. frame. Qed.

Lemma preserves_set_tarantool_connection (self : loc) (v : option pyobj) :
  preserves I (Locksmith_set_tarantool_connection self v).
Proof. unfold Locksmith_set_tarantool_connection. frame. Qed.

Lemma preserves_tarantool_lock (self : loc) :
  preserves I (Locksmith_tarantool_lock self).
Proof. unfold Locksmith_tarantool_lock, threading_Lock. frame. Qed.

Lemma preserves_set_tarantool_lock (self : loc) (v : option pyobj) :
  preserves I (Locksmith_set_tarantool_lock self v).
Proof. unfold Locksmith_set_tarantool_lock, threading_Lock. frame. Qed.

Lemma preserves_instantiate (cls : conclass) (h p u pw t : pyval) :
  preserves I (instantiate ext cls h p u pw t).
Proof. unfold instantiate. frame. Qed.

Lemma preserves_call (c : option conn) (func : string) (args : list pyval) :
  preserves I (call ext c func args).
Proof. unfold call. frame. Qed.

Lemma preserves_tnt (self : loc) : preserves I (Locksmith_tnt ext self).
Proof.
  pose proof preserves_tarantool_connection.
  pose proof preserves_tarantool_lock.
  pose proof preserves_instantiate.
  unfold Locksmith_tnt, with_, lock_enter, lock_exit. frame.
Qed.

Lemma preserves_update (self : loc) (lock_uid validity : pyval) :
  preserves I (Locksmith_update ext self lock_uid validity).
Proof.
  pose proof preserves_tnt. pose proof preserves_call.
  unfold Locksmith_update. frame.
Qed.

Lemma preserves_release (self : loc) (lock_uid : pyval) :
  preserves I (Locksmith_release ext self lock_uid).
Proof.
  pose proof preserves_tnt. pose proof preserves_call.
  unfold Locksmith_release. frame.
Qed.

Lemma preserves_statistics (self : loc) :
  preserves I (Locksmith_statistics ext self).
Proof.
  pose proof preserves_tnt. pose proof preserves_call.
  unfold Locksmith_statistics. frame.
Qed.

Lemma preserves_acquire (self : loc) (lock_name validity timeout : pyval) :
  preserves I (Locksmith_acquire ext self lock_name validity timeout).
Proof.
  pose proof preserves_tnt. pose proof preserves_call.
  unfold Locksmith_acquire, Lock_init. frame.
Qed.

Lemma preserves_init (h p u pw t : pyval) :
  preserves I (Locksmith_init h p u pw t).
Proof. unfold Locksmith_init, raise_from, threading_Lock. frame. Qed.

Lemma preserves_lock_update (h : loc) (validity : pyval) :
  preserves I (Lock_update ext h validity).
Proof. pose proof preserves_update. unfold Lock_update. frame. Qed.

Lemma preserves_lock_release (h : loc) :
  preserves I (Lock_release ext h).
Proof. pose proof preserves_release. unfold Lock_release. frame. Qed.

Lemma preserves_perform (o : op) : preserves I (perform ext o).
Proof.
  pose proof preserves_init. pose proof preserves_tarantool_connection.
  pose proof preserves_set_tarantool_connection.
  pose proof preserves_tarantool_lock. pose proof preserves_set_tarantool_lock.
  pose proof preserves_tnt. pose proof preserves_acquire.
  pose proof preserves_update. pose proof preserves_release.
  pose proof preserves_statistics. pose proof preserves_lock_update.
  pose proof preserves_lock_release.
  destruct o; simpl; frame.
Qed.

Lemma preserves_perform_all (ops : list op) : preserves I (perform_all ext ops).
Proof.
  induction ops as [|o ops IH]; simpl; [apply preserves_ret|].
  apply preserves_bind; [apply preserves_perform|intros _; exact IH].
Qed.

End Preservation.

(** *** Two invariants *)

Lemma handle_is_update_locksmith (h : loc) (l : Lock) (self : loc)
  (f : Locksmith → Locksmith) :
  preserves (handle_is h l) (update_locksmith self f).
Proof.
  intros w H. unfold update_locksmith, read_locksmith, store, handle_is in *.
  unfold_monad. unfold lock_at in *.
  destruct (heap w !! self) as [[s|l']|] eqn:Hs; simpl; try exact H.
  rewrite lookup_insert_ne; [exact H|].
  intros ->. rewrite Hs in H. discriminate.
Qed.

Lemma configured_update_locksmith (self0 : loc)
  (cfg : pyval * pyval * pyval * pyval * pyval) (self : loc)
  (f : Locksmith → Locksmith) :
  (∀ s, settings (f s) = settings s) →
  preserves (configured self0 cfg) (update_locksmith self f).
Proof.
  intros Hf w (Hwf & s0 & Hs0 & Hcfg).
  unfold update_locksmith, read_locksmith, store, configured in *.
  unfold_monad. unfold locksmith_at, wf in *.
  destruct (heap w !! self) as [[s|l']|] eqn:Hs; simpl; eauto.
  split.
  - intros l o Hl. destruct (decide (l = self)) as [->|Hne].
    + eapply Hwf. exact Hs.
    + rewrite lookup_insert_ne in Hl by congruence. eapply Hwf. exact Hl.
  - destruct (decide (self0 = self)) as [->|Hne].
    + rewrite lookup_insert_eq. rewrite Hs in Hs0. simplify_eq.
      eexists. split; [reflexivity|]. apply Hf.
    + rewrite lookup_insert_ne by congruence. eauto.
Qed.

Lemma configured_alloc (self0 : loc)
  (cfg : pyval * pyval * pyval * pyval * pyval) (o : object) :
  preserves (configured self0 cfg) (alloc o).
Proof.
  intros w (Hwf & s0 & Hs0 & Hcfg). unfold configured. unfold_monad. simpl.
  unfold locksmith_at, wf in *. simpl. split.
  - intros l o' Hl. destruct (decide (l = next_id w)) as [->|Hne]; [lia|].
    rewrite lookup_insert_ne in Hl by congruence. apply Hwf in Hl. lia.
  - destruct (heap w !! self0) as [o0|] eqn:H0; [|discriminate].
    pose proof (Hwf _ _ H0) as Hlt.
    rewrite lookup_insert_ne by lia. rewrite H0. eauto.
Qed.

Lemma configured_fresh (self0 : loc)
  (cfg : pyval * pyval * pyval * pyval * pyval) :
  preserves (configured self0 cfg) fresh.
Proof.
  intros w (Hwf & Hs). split; [|exact Hs].
  intros l o Hl. simpl in *. apply Hwf in Hl. lia.
Qed.

Lemma constructed_app (a b : list event) :
  constructed (a ++ b) = (constructed a ++ constructed b)%list.
Proof.
  induction a as [|e a IH]; [reflexivity|].
  destruct e as [| | cls h p u pw t [c|x] |]; simpl; rewrite IH; reflexivity.
Qed.

Section Properties.

Context (ext : Extern).

Lemma read_locksmith_at (w : World) (self : loc) (s : Locksmith) :
  locksmith_at w self = Some s → read_locksmith self w = (Ok s, w).
Proof.
  unfold locksmith_at, read_locksmith.
  destruct (heap w !! self) as [[s'|l]|]; intros H; simplify_eq; reflexivity.
Qed.

(** Once the channel is there, the property hands it out and touches
    nothing. *)
Lemma tnt_cached (w : World) (self : loc) (s : Locksmith) (c : conn) :
  locksmith_at w self = Some s → _tnt s = Some c →
  Locksmith_tnt ext self w = (Ok (Some c), w).
Proof.
  intros Hs Hc. unfold Locksmith_tnt. unfold_monad.
  rewrite (read_locksmith_at _ _ _ Hs), Hc.
  rewrite (read_locksmith_at _ _ _ Hs), Hc. reflexivity.
Qed.


Lemma read_lock_at (w : World) (h : loc) (l : Lock) :
  lock_at w h = Some l → read_lock h w = (Ok l, w).
Proof.
  unfold lock_at, read_lock.
  destruct (heap w !! h) as [[s|l']|]; intros H; simplify_eq; reflexivity.
Qed.

Lemma acquire_after_tnt self lock_name validity timeout w c w1 :
  Locksmith_tnt ext self w = (Ok (Some c), w1) →
  Locksmith_acquire ext self lock_name validity timeout w =
  (let args := [PTuple (acquire_args lock_name validity timeout)] in
   let r := ext_call ext (trace w1) c "locksmith:acquire" args in
   let w2 := logged w1 (EvCall c "locksmith:acquire" args r) in
   match r with
   | Raise e => (Raise e, w2)
   | Ok reply =>
     match getitem reply 0 with
     | Raise e => (Raise e, w2)
     | Ok the_tuple =>
       match getitem the_tuple 0 with
       | Raise e => (Raise e, w2)
       | Ok ok =>
         if is_not_None ok then
           match getitem the_tuple 1 with
           | Raise e => (Raise e, w2)
           | Ok n =>
             match getitem the_tuple 2 with
             | Raise e => (Raise e, w2)
             | Ok u => 
                (Ok (Some (next_id w2)),
                 {| heap := <[next_id w2 := OLock {| locksmith := self; name := n; uid := u |}]> (heap w2);
                    next_id := S (next_id w2); trace := trace w2 |})
             end
           end
         else (Ok None, w2)
       end
     end
   end).
Proof.
  intros H. unfold Locksmith_acquire, call, Lock_init. unfold_monad. rewrite H. simpl.
  destruct (ext_call _ _ _ _ _) as [reply|e]; [|reflexivity].
  destruct (getitem reply 0) as [t|e]; [|reflexivity].
  destruct (getitem t 0) as [ok|e]; [|reflexivity].
  destruct (is_not_None ok); [|reflexivity].
  destruct (getitem t 1) as [n|e]; [|reflexivity].
  destruct (getitem t 2) as [u|e]; reflexivity.
Qed.



(** C1.  Whatever the authority replies to [locksmith:acquire]: when
    element 0 of the first reply tuple is not [None], [acquire] returns a
    new [Lock] whose [name] is element 1 and whose [uid] is element 2 of
    that tuple, and whose coordinator is [self]; when element 0 is
    [None], [acquire] returns [None] and raises nothing. *)
Theorem acquire_returns_handle_or_none
  (self : loc) (lock_name validity timeout : pyval) (w w1 : World) (c : conn)
  (reply the_tuple ok : pyval) :
  Locksmith_tnt ext self w = (Ok (Some c), w1) →
  ext_call ext (trace w1) c "locksmith:acquire"
           [PTuple (acquire_args lock_name validity timeout)] = Ok reply →
  getitem reply 0 = Ok the_tuple →
  getitem the_tuple 0 = Ok ok →
  let w2 := logged w1 (EvCall c "locksmith:acquire"
                         [PTuple (acquire_args lock_name validity timeout)]
                         (Ok reply)) in
  (ok ≠ PNone →
   ∀ n u, getitem the_tuple 1 = Ok n → getitem the_tuple 2 = Ok u →
     ∃ h w3,
       Locksmith_acquire ext self lock_name validity timeout w
         = (Ok (Some h), w3) ∧
       lock_at w3 h = Some {| locksmith := self; name := n; uid := u |}) ∧
  (ok = PNone →
   Locksmith_acquire ext self lock_name validity timeout w = (Ok None, w2)).
Proof.
  intros Htnt Hcall Hrep Htup w2.
  pose proof (acquire_after_tnt self lock_name validity timeout w c w1 Htnt)
    as Hrun.
  cbv zeta in Hrun. rewrite Hcall, Hrep, Htup in Hrun.
  split.
  - intros Hok n u Hn Hu.
    destruct ok; try congruence; simpl in Hrun; rewrite Hn, Hu in Hrun;
      eexists _, _; (split; [exact Hrun|]);
      unfold lock_at; simpl; rewrite lookup_insert_eq; reflexivity.
  - intros ->. exact Hrun.
Qed.

Lemma update_after_tnt self lock_uid validity w c w1 :
  Locksmith_tnt ext self w = (Ok (Some c), w1) →
  Locksmith_update ext self lock_uid validity w =
  (let args := [PTuple [lock_uid; validity]] in
   let r := ext_call ext (trace w1) c "locksmith:update" args in
   let w2 := logged w1 (EvCall c "locksmith:update" args r) in
   match r with
   | Raise e => (Raise e, w2)
   | Ok reply =>
     match getitem reply 0 with
     | Raise e => (Raise e, w2)
     | Ok the_tuple =>
       match getitem the_tuple 0 with
       | Raise e => (Raise e, w2)
       | Ok ok => (Ok (is_not_None ok), w2)
       end
     end
   end).
Proof.
  intros H. unfold Locksmith_update, call. unfold_monad. rewrite H. simpl.
  destruct (ext_call _ _ _ _ _) as [reply|e]; [|reflexivity].
  destruct (getitem reply 0) as [t|e]; [|reflexivity].
  destruct (getitem t 0) as [ok|e]; reflexivity.
Qed.

Lemma release_after_tnt self lock_uid w c w1 :
  Locksmith_tnt ext self w = (Ok (Some c), w1) →
  Locksmith_release ext self lock_uid w =
  (let args := [PTuple [lock_uid]] in
   let r := ext_call ext (trace w1) c "locksmith:release" args in
   let w2 := logged w1 (EvCall c "locksmith:release" args r) in
   match r with
   | Raise e => (Raise e, w2)
   | Ok reply =>
     match getitem reply 0 with
     | Raise e => (Raise e, w2)
     | Ok the_tuple =>
       match getitem the_tuple 0 with
       | Raise e => (Raise e, w2)
       | Ok ok => (Ok (is_not_None ok), w2)
       end
     end
   end).
Proof.
  intros H. unfold Locksmith_release, call. unfold_monad. rewrite H. simpl.
  destruct (ext_call _ _ _ _ _) as [reply|e]; [|reflexivity].
  destruct (getitem reply 0) as [t|e]; [|reflexivity].
  destruct (getitem t 0) as [ok|e]; reflexivity.
Qed.

Lemma is_not_None_true (v : pyval) : is_not_None v = true ↔ v ≠ PNone.
Proof. destruct v; simpl; split; congruence. Qed.

(** C2.  For every lease uid and validity, [update] and [release] return
    a boolean that is [True] exactly when element 0 of the first reply
    tuple is not [None]; for an unknown or expired lease (element 0 is
    [None]) they return [False] and raise nothing. *)
Theorem update_release_true_iff_present
  (self : loc) (lock_uid validity : pyval) (w w1 : World) (c : conn)
  (reply_u tuple_u ok_u reply_r tuple_r ok_r : pyval) :
  Locksmith_tnt ext self w = (Ok (Some c), w1) →
  ext_call ext (trace w1) c "locksmith:update"
           [PTuple [lock_uid; validity]] = Ok reply_u →
  getitem reply_u 0 = Ok tuple_u →
  getitem tuple_u 0 = Ok ok_u →
  ext_call ext (trace w1) c "locksmith:release"
           [PTuple [lock_uid]] = Ok reply_r →
  getitem reply_r 0 = Ok tuple_r →
  getitem tuple_r 0 = Ok ok_r →
  (∃ b wu, Locksmith_update ext self lock_uid validity w = (Ok b, wu) ∧
           (b = true ↔ ok_u ≠ PNone) ∧ (ok_u = PNone → b = false)) ∧
  (∃ b wr, Locksmith_release ext self lock_uid w = (Ok b, wr) ∧
           (b = true ↔ ok_r ≠ PNone) ∧ (ok_r = PNone → b = false)).
Proof.
  intros Htnt Hu Hu0 Hu1 Hr Hr0 Hr1. split.
  - rewrite (update_after_tnt _ _ _ _ _ _ Htnt). cbv zeta.
    rewrite Hu, Hu0, Hu1. eexists _, _. split; [reflexivity|].
    split; [apply is_not_None_true | intros ->; reflexivity].
  - rewrite (release_after_tnt _ _ _ _ _ Htnt). cbv zeta.
    rewrite Hr, Hr0, Hr1. eexists _, _. split; [reflexivity|].
    split; [apply is_not_None_true | intros ->; reflexivity].
Qed.

(** C3.  [acquire] sends one [locksmith:acquire] call and no other: with
    the tuple [(lock_name, validity)] when [timeout] is [None], and with
    [(lock_name, validity, timeout)], the timeout passed on as it is,
    for any other [timeout], zero included.  Whatever the reply, that
    call is all [acquire] adds to the trace. *)
Theorem acquire_call_shape
  (self : loc) (lock_name validity timeout : pyval) (w w1 : World) (c : conn) :
  Locksmith_tnt ext self w = (Ok (Some c), w1) →
  ∃ args : list pyval,
    (timeout = PNone → args = [lock_name; validity]) ∧
    (timeout ≠ PNone → args = [lock_name; validity; timeout]) ∧
    trace (snd (Locksmith_acquire ext self lock_name validity timeout w)) =
    (trace w1 ++
       [EvCall c "locksmith:acquire" [PTuple args]
          (ext_call ext (trace w1) c "locksmith:acquire" [PTuple args])])%list.
Proof.
  intros Htnt. exists (acquire_args lock_name validity timeout).
  split; [intros ->; reflexivity|].
  split; [intros Hne; destruct timeout; try congruence; reflexivity|].
  rewrite (acquire_after_tnt _ _ _ _ _ _ _ Htnt). cbv zeta.
  destruct (ext_call _ _ _ _ _) as [reply|e]; [|reflexivity].
  destruct (getitem reply 0) as [t|e]; [|reflexivity].
  destruct (getitem t 0) as [ok|e]; [|reflexivity].
  destruct (is_not_None ok); [|reflexivity].
  destruct (getitem t 1) as [n|e]; [|reflexivity].
  destruct (getitem t 2) as [u|e]; reflexivity.
Qed.

(** C8.  [statistics] sends [locksmith:statistics] with no argument and
    returns element 0 of the first reply tuple as it is. *)
Theorem statistics_first_of_first
  (self : loc) (w w1 : World) (c : conn) (reply the_tuple v : pyval) :
  Locksmith_tnt ext self w = (Ok (Some c), w1) →
  ext_call ext (trace w1) c "locksmith:statistics" [] = Ok reply →
  getitem reply 0 = Ok the_tuple →
  getitem the_tuple 0 = Ok v →
  Locksmith_statistics ext self w =
  (Ok v, logged w1 (EvCall c "locksmith:statistics" [] (Ok reply))).
Proof.
  intros Htnt Hcall H0 H1. unfold Locksmith_statistics, call. unfold_monad.
  rewrite Htnt. simpl. rewrite Hcall, H0, H1. reflexivity.
Qed.



Lemma tnt_first (w : World) (self : loc) (s : Locksmith)
  (lk : lockinst) (cls : conclass) (b : bool) :
  locksmith_at w self = Some s →
  _tnt s = None → _lockinst s = Some lk → _conclass s = Some cls →
  opens_cleanly ext (trace w) lk cls s (next_id w) b →
  Locksmith_tnt ext self w =
  (Ok (Some (next_id w)),
   {| heap := <[self := OLocksmith (with_tnt (Some (next_id w)) s)]> (heap w);
      next_id := S (next_id w);
      trace := trace w ++ first_use lk cls s (next_id w) b |}).
Proof.
  intros Hs Ht Hl Hc (Henter & Hinit & Hexit).
  assert (Hr : ∀ n tr, read_locksmith self
             {| heap := heap w; next_id := n; trace := tr |} =
           (Ok s, {| heap := heap w; next_id := n; trace := tr |})).
  { intros n tr. apply read_locksmith_at. exact Hs. }
  unfold Locksmith_tnt, Locksmith_tarantool_lock, Locksmith_tarantool_connection,
    with_, lock_enter, lock_exit, instantiate, update_locksmith.
  unfold_monad.
  pose proof (read_locksmith_at _ _ _ Hs) as Hw.
  repeat (first [rewrite Hw | rewrite Hr | rewrite Ht | rewrite Hl
                | rewrite Hc | rewrite Henter | rewrite Hinit]; simpl).
  unfold first_use. rewrite <- !app_assoc in *. simpl in *.
  rewrite Hexit. simpl.
  unfold read_locksmith. simpl. rewrite lookup_insert_eq. simpl.
  reflexivity.
Qed.



Lemma tnt_step (w : World) (self : loc) :
  let w' := snd (Locksmith_tnt ext self w) in
  constructed (trace w') = constructed (trace w) ∨
  ∃ c s', constructed (trace w') = (constructed (trace w) ++ [c])%list ∧
          locksmith_at w' self = Some s' ∧ _tnt s' = Some c.
Proof.
  unfold Locksmith_tnt, Locksmith_tarantool_lock, Locksmith_tarantool_connection,
    with_, lock_enter, lock_exit, instantiate, update_locksmith, threading_Lock,
    read_locksmith, locksmith_at.
  unfold_monad. simpl.
  repeat (rewrite ?lookup_insert_eq; simpl in *; try case_match; simplify_eq).
  all: simpl; rewrite ?lookup_insert_eq; simpl.
  all: rewrite ?constructed_app; simpl; rewrite ?app_nil_r.
  all: try (left; reflexivity).
  all: right; eexists _, _; split; [reflexivity|]; split; reflexivity.
Qed.


Lemma accesses_cached (n : nat) (w : World) (self : loc) (s : Locksmith) (c : conn) :
  locksmith_at w self = Some s → _tnt s = Some c →
  tnt_accesses ext n self w = (Ok tt, w).
Proof.
  intros Hs Hc. induction n as [|n IH]; [reflexivity|].
  simpl. unfold_monad. rewrite (tnt_cached _ _ _ _ Hs Hc). exact IH.
Qed.

Lemma accesses_at_most_one (n : nat) (self : loc) (w : World) :
  ∃ new, constructed (trace (snd (tnt_accesses ext n self w)))
         = (constructed (trace w) ++ new)%list ∧ (length new ≤ 1)%nat.
Proof.
  revert w. induction n as [|n IH]; intros w.
  { exists []. simpl. rewrite app_nil_r. split; [reflexivity|lia]. }
  simpl. unfold_monad.
  pose proof (tnt_step w self) as Hstep. cbv zeta in Hstep.
  destruct (Locksmith_tnt ext self w) as [r w1]. simpl in Hstep.
  destruct Hstep as [Hsame | (c & s' & Hone & Hs' & Hc)].
  - destruct (IH w1) as (new & Hnew & Hlen). exists new.
    rewrite Hnew, Hsame. split; [reflexivity|exact Hlen].
  - rewrite (accesses_cached n w1 self s' c Hs' Hc). simpl.
    exists [c]. split; [exact Hone|simpl; lia].
Qed.

(** C4.  Accesses to the [tnt] property build the channel at most once.
    The first access finds [_tnt] unset, enters the lock, finds [_tnt]
    still unset, instantiates the connection class with the host, port,
    user, password and timeout of the coordinator, stores the instance and
    leaves the lock; any later access, in any world where that instance
    is still stored, returns the same instance and changes nothing.  And
    from any world at all, any number of accesses adds at most one
    construction to the trace. *)
Theorem channel_constructed_once
  (self : loc) (w : World) (s : Locksmith) (lk : lockinst) (cls : conclass)
  (b : bool) :
  locksmith_at w self = Some s →
  _tnt s = None → _lockinst s = Some lk → _conclass s = Some cls →
  opens_cleanly ext (trace w) lk cls s (next_id w) b →
  ∃ c w1,
    Locksmith_tnt ext self w = (Ok (Some c), w1) ∧
    trace w1 = (trace w ++ first_use lk cls s c b)%list ∧
    constructed (trace w1) = (constructed (trace w) ++ [c])%list ∧
    locksmith_at w1 self = Some (with_tnt (Some c) s) ∧
    (∀ w2 s2, locksmith_at w2 self = Some s2 → _tnt s2 = Some c →
              Locksmith_tnt ext self w2 = (Ok (Some c), w2)) ∧
    (∀ n, tnt_accesses ext n self w1 = (Ok tt, w1)) ∧
    (∀ n, ∃ new,
        constructed (trace (snd (tnt_accesses ext n self w)))
        = (constructed (trace w) ++ new)%list ∧ (length new ≤ 1)%nat).
Proof.
  intros Hs Ht Hl Hc Hopen.
  eexists _, _. split; [apply (tnt_first w self s lk cls b); assumption|].
  assert (Hat : locksmith_at
                  {| heap := <[self := OLocksmith (with_tnt (Some (next_id w)) s)]>
                               (heap w);
                     next_id := S (next_id w);
                     trace := trace w ++ first_use lk cls s (next_id w) b |}
                  self = Some (with_tnt (Some (next_id w)) s)).
  { unfold locksmith_at. simpl. rewrite lookup_insert_eq. reflexivity. }
  repeat split.
  - simpl. rewrite constructed_app. reflexivity.
  - exact Hat.
  - intros w2 s2 Hs2 Hc2. apply (tnt_cached w2 self s2 _ Hs2 Hc2).
  - intros n. apply (accesses_cached n _ self _ (next_id w) Hat). reflexivity.
  - intros n. apply accesses_at_most_one.
Qed.

(** C5.  What the constructor does with a host or port that is missing
    or empty, or with a port that is not an [int]: the [raise] statement
    looks [BadConfigException] up on class [Lock], which does not have
    it, so the caller gets an [AttributeError] and no coordinator.  The
    exception class meant for this, [Locksmith.BadConfigException], is
    never raised. *)
Theorem init_invalid_raises_AttributeError
  (host port user password timeout : pyval) (w : World) :
  truthy host = false ∨ truthy port = false ∨ isinstance_int port = false →
  Locksmith_init host port user password timeout w =
  (Raise (AttributeError
            "type object 'Lock' has no attribute 'BadConfigException'"), w).
Proof.
  intros H. unfold Locksmith_init. unfold_monad.
  destruct (truthy host) eqn:Hh; [|reflexivity].
  destruct (truthy port) eqn:Hp; [|reflexivity].
  destruct (isinstance_int port) eqn:Hi; [|reflexivity].
  destruct H as [H|[H|H]]; discriminate.
Qed.

(** C6.  A substitute connection class without [call] (or without
    [__init__]), and a substitute lock without [__enter__] or without
    [__exit__], are turned down on assignment: the setter raises its
    [TypeError] and the coordinator is left exactly as it was, with the
    substitute configured before. *)
Theorem substitutes_without_capability_rejected
  (self : loc) (con_cls lock : pyobj) (w : World) :
  in_dir "call" con_cls && in_dir "__init__" con_cls = false →
  in_dir "__enter__" lock && in_dir "__exit__" lock = false →
  Locksmith_set_tarantool_connection self (Some con_cls) w =
    (Raise (TypeError
       "Connection class must have connect and call methods or be None"), w) ∧
  Locksmith_set_tarantool_lock self (Some lock) w =
    (Raise (TypeError
       "Lock class must have `__enter__` and `__exit__` methods or be None"), w).
Proof.
  intros Hc Hl.
  unfold Locksmith_set_tarantool_connection, Locksmith_set_tarantool_lock.
  unfold_monad. rewrite Hc, Hl. split; reflexivity.
Qed.

Lemma update_locksmith_at (w : World) (self : loc) (s : Locksmith)
  (f : Locksmith → Locksmith) :
  locksmith_at w self = Some s →
  update_locksmith self f w =
  (Ok tt, {| heap := <[self := OLocksmith (f s)]> (heap w);
             next_id := next_id w; trace := trace w |}).
Proof.
  intros Hs. unfold update_locksmith. unfold_monad.
  rewrite (read_locksmith_at _ _ _ Hs). reflexivity.
Qed.

Lemma locksmith_at_insert (hp : gmap nat object) (n : nat) (tr : list event)
  (self : loc) (s : Locksmith) :
  locksmith_at {| heap := <[self := OLocksmith s]> hp; next_id := n;
                  trace := tr |} self = Some s.
Proof. unfold locksmith_at. simpl. rewrite lookup_insert_eq. reflexivity. Qed.

Lemma set_connection_accepted (self : loc) (v : option pyobj) (w : World)
  (s : Locksmith) :
  locksmith_at w self = Some s → accepted_class v = true →
  Locksmith_set_tarantool_connection self v w =
  (Ok tt,
   {| heap := <[self := OLocksmith
                          (with_tnt None (with_conclass (Some (class_of v)) s))]>
                (heap w);
      next_id := next_id w; trace := trace w |}).
Proof.
  intros Hs Hv. unfold Locksmith_set_tarantool_connection.
  unfold mbind, M_bind.
  assert (Hfirst :
    match v with
    | Some o =>
        if in_dir "call" o && in_dir "__init__" o
        then update_locksmith self (with_conclass (Some (CustomClass o)))
        else raise (TypeError
                "Connection class must have connect and call methods or be None")
    | None => update_locksmith self (with_conclass (Some TarantoolConnection))
    end w =
    (Ok tt, {| heap := <[self := OLocksmith (with_conclass (Some (class_of v)) s)]>
                         (heap w);
               next_id := next_id w; trace := trace w |})).
  { destruct v as [o|]; simpl in *; [rewrite Hv|];
      apply update_locksmith_at; exact Hs. }
  rewrite Hfirst.
  rewrite (update_locksmith_at _ self _ _ (locksmith_at_insert _ _ _ _ _)).
  simpl. rewrite insert_insert_eq. reflexivity.
Qed.

Lemma set_lock_accepted (self : loc) (v : option pyobj) (w : World)
  (s : Locksmith) :
  locksmith_at w self = Some s → accepted_lock v = true →
  ∃ lk w',
    Locksmith_set_tarantool_lock self v w = (Ok tt, w') ∧
    locksmith_at w' self = Some (with_lockinst (Some lk) s) ∧
    trace w' = trace w ∧
    lk = match v with
         | None => ThreadingLock (next_id w)
         | Some o => CustomLock o
         end.
Proof.
  intros Hs Hv. unfold Locksmith_set_tarantool_lock.
  destruct v as [o|]; simpl in *.
  - rewrite Hv. rewrite (update_locksmith_at _ _ _ _ Hs).
    eexists _, _. split; [reflexivity|].
    split; [apply locksmith_at_insert|]. split; reflexivity.
  - unfold threading_Lock. unfold_monad. simpl.
    assert (Hs' : locksmith_at {| heap := heap w; next_id := S (next_id w);
                                  trace := trace w |} self = Some s) by exact Hs.
    rewrite (update_locksmith_at _ _ _ _ Hs').
    eexists _, _. split; [reflexivity|].
    split; [apply locksmith_at_insert|]. split; reflexivity.
Qed.

(** C7.  Assigning [None] to [tarantool_connection] stores
    [tarantool.Connection]; assigning [None] to [tarantool_lock] stores a
    new [threading.Lock()]; and reading either property while its
    attribute is unset stores and returns that same default. *)
Theorem none_resets_to_defaults (self : loc) (w : World) (s : Locksmith) :
  locksmith_at w self = Some s →
  (∃ w1, Locksmith_set_tarantool_connection self None w = (Ok tt, w1) ∧
         locksmith_at w1 self =
         Some (with_tnt None (with_conclass (Some TarantoolConnection) s))) ∧
  (∃ w2, Locksmith_set_tarantool_lock self None w = (Ok tt, w2) ∧
         locksmith_at w2 self =
         Some (with_lockinst (Some (ThreadingLock (next_id w))) s)) ∧
  (_conclass s = None →
   ∃ w3, Locksmith_tarantool_connection self w = (Ok TarantoolConnection, w3) ∧
         locksmith_at w3 self =
         Some (with_conclass (Some TarantoolConnection) s)) ∧
  (_lockinst s = None →
   ∃ w4, Locksmith_tarantool_lock self w
         = (Ok (ThreadingLock (next_id w)), w4) ∧
         locksmith_at w4 self =
         Some (with_lockinst (Some (ThreadingLock (next_id w))) s)).
Proof.
  intros Hs. repeat split.
  - eexists. split; [apply (set_connection_accepted self None w s Hs eq_refl)|].
    apply locksmith_at_insert.
  - destruct (set_lock_accepted self None w s Hs eq_refl)
      as (lk & w' & Hrun & Hat & _ & ->).
    exists w'. split; assumption.
  - intros Hc. unfold Locksmith_tarantool_connection. unfold mbind, M_bind.
    rewrite (read_locksmith_at _ _ _ Hs), Hc.
    rewrite (update_locksmith_at _ _ _ _ Hs).
    eexists. split; [reflexivity|]. apply locksmith_at_insert.
  - intros Hl. unfold Locksmith_tarantool_lock, threading_Lock. unfold_monad.
    rewrite (read_locksmith_at _ _ _ Hs), Hl. simpl.
    assert (Hs' : locksmith_at {| heap := heap w; next_id := S (next_id w);
                                  trace := trace w |} self = Some s) by exact Hs.
    rewrite (update_locksmith_at _ _ _ _ Hs').
    eexists. split; [reflexivity|]. apply locksmith_at_insert.
Qed.

(** C10.  Assigning a value the connection setter accepts (a class with
    [call] and [__init__], or [None]) leaves [_tnt] unset, so the next
    access to [tnt] instantiates the class just configured and yields a
    newly built channel.  Assigning anything to the lock setter, accepted
    or not, leaves [_tnt] as it was, so a channel that was already there
    is still the one handed out, and nothing is built. *)
Theorem connection_setter_drops_channel_lock_setter_keeps_it
  (self : loc) (w : World) (s : Locksmith) (vc vl : option pyobj)
  (lk : lockinst) (b : bool) :
  locksmith_at w self = Some s →
  accepted_class vc = true →
  _lockinst s = Some lk →
  (∃ w1,
     Locksmith_set_tarantool_connection self vc w = (Ok tt, w1) ∧
     locksmith_at w1 self =
       Some (with_tnt None (with_conclass (Some (class_of vc)) s)) ∧
     (opens_cleanly ext (trace w1) lk (class_of vc) s (next_id w1) b →
      ∃ c w2,
        Locksmith_tnt ext self w1 = (Ok (Some c), w2) ∧
        trace w2 = (trace w1 ++ first_use lk (class_of vc) s c b)%list ∧
        constructed (trace w2) = (constructed (trace w1) ++ [c])%list)) ∧
  (∃ s3,
     let w3 := snd (Locksmith_set_tarantool_lock self vl w) in
     locksmith_at w3 self = Some s3 ∧
     _tnt s3 = _tnt s ∧
     trace w3 = trace w ∧
     (∀ c, _tnt s = Some c → Locksmith_tnt ext self w3 = (Ok (Some c), w3))).
Proof.
  intros Hs Hvc Hlk. split.
  - eexists. split; [apply (set_connection_accepted self vc w s Hs Hvc)|].
    split; [apply locksmith_at_insert|].
    intros Hopen. eexists _, _.
    split.
    + apply (tnt_first _ self
               (with_tnt None (with_conclass (Some (class_of vc)) s))
               lk (class_of vc) b);
        [apply locksmith_at_insert|reflexivity|exact Hlk|reflexivity|exact Hopen].
    + split; [reflexivity|]. simpl. rewrite constructed_app. reflexivity.
  - destruct (accepted_lock vl) eqn:Hvl.
    + destruct (set_lock_accepted self vl w s Hs Hvl)
        as (lk' & w' & Hrun & Hat & Htr & _).
      exists (with_lockinst (Some lk') s). rewrite Hrun. simpl.
      split; [exact Hat|]. split; [reflexivity|]. split; [exact Htr|].
      intros c Hc. apply (tnt_cached w' self _ c Hat). exact Hc.
    + destruct vl as [o|]; [|discriminate]. simpl in Hvl.
      exists s. unfold Locksmith_set_tarantool_lock. rewrite Hvl. simpl.
      split; [exact Hs|]. split; [reflexivity|]. split; [reflexivity|].
      intros c Hc. apply (tnt_cached w self s c Hs Hc).
Qed.

Lemma init_valid (h p u pw t : pyval) (w0 w : World) (self : loc) :
  Locksmith_init h p u pw t w0 = (Ok self, w) →
  truthy h = true ∧ truthy p = true ∧ isinstance_int p = true ∧
  self = S (next_id w0) ∧
  w = {| heap := <[self := OLocksmith
                    {| host := h; port := p; user := u; password := pw;
                       timeout := t; tubes := [];
                       _lockinst := Some (ThreadingLock (next_id w0));
                       _conclass := Some TarantoolConnection;
                       _tnt := None |}]> (heap w0);
         next_id := S (S (next_id w0));
         trace := trace w0 |}.
Proof.
  unfold Locksmith_init, threading_Lock. unfold_monad.
  destruct (truthy h); [|discriminate].
  destruct (truthy p); [|discriminate].
  destruct (isinstance_int p); [|discriminate].
  simpl. intros H. simplify_eq. repeat split; reflexivity.
Qed.

(** X1.  The settings given to the constructor are the settings of the
    coordinator ever after, whatever the callers do with this coordinator,
    with its handles or with other coordinators. *)
Theorem settings_fixed (h p u pw t : pyval) (w0 w : World) (self : loc)
  (ops : list op) :
  wf w0 →
  Locksmith_init h p u pw t w0 = (Ok self, w) →
  ∃ s, locksmith_at (snd (perform_all ext ops w)) self = Some s ∧
       settings s = (h, p, u, pw, t).
Proof.
  intros Hwf Hinit.
  destruct (init_valid _ _ _ _ _ _ _ _ Hinit) as (_ & _ & _ & -> & ->).
  assert (H0 : configured (S (next_id w0)) (h, p, u, pw, t)
      {| heap := <[S (next_id w0) := OLocksmith
                    {| host := h; port := p; user := u; password := pw;
                       timeout := t; tubes := [];
                       _lockinst := Some (ThreadingLock (next_id w0));
                       _conclass := Some TarantoolConnection;
                       _tnt := None |}]> (heap w0);
         next_id := S (S (next_id w0));
         trace := trace w0 |}).
  { split.
    - intros l o Hl. simpl in *.
      destruct (decide (l = S (next_id w0))) as [->|Hne]; [lia|].
      rewrite lookup_insert_ne in Hl by congruence. apply Hwf in Hl. lia.
    - eexists. split; [apply locksmith_at_insert|reflexivity]. }
  assert (Hkeep : preserves (configured (S (next_id w0)) (h, p, u, pw, t))
                            (perform_all ext ops)).
  { apply preserves_perform_all.
    - intros e w' H'. exact H'.
    - apply configured_fresh.
    - intros self' v. apply configured_update_locksmith. reflexivity.
    - intros self' v. apply configured_update_locksmith. reflexivity.
    - intros self' v. apply configured_update_locksmith. reflexivity.
    - apply configured_alloc. }
  apply Hkeep in H0. destruct H0 as (_ & Hs). exact Hs.
Qed.

(** C9.  [h.update(v)] is [h.locksmith.update(h.uid, v)] and
    [h.release()] is [h.locksmith.release(h.uid)], result and effect,
    with the uid stored in the handle; after either call the handle has
    the same coordinator, name and uid. *)
Theorem handle_delegates (h : loc) (l : Lock) (validity : pyval) (w : World) :
  lock_at w h = Some l →
  Lock_update ext h validity w =
    Locksmith_update ext (locksmith l) (uid l) validity w ∧
  Lock_release ext h w = Locksmith_release ext (locksmith l) (uid l) w ∧
  lock_at (snd (Lock_update ext h validity w)) h = Some l ∧
  lock_at (snd (Lock_release ext h w)) h = Some l.
Proof.
  intros H.
  assert (Hu : Lock_update ext h validity w =
               Locksmith_update ext (locksmith l) (uid l) validity w).
  { unfold Lock_update, mbind, M_bind. rewrite (read_lock_at _ _ _ H).
    reflexivity. }
  assert (Hr : Lock_release ext h w =
               Locksmith_release ext (locksmith l) (uid l) w).
  { unfold Lock_release, mbind, M_bind. rewrite (read_lock_at _ _ _ H).
    reflexivity. }
  rewrite Hu, Hr. repeat split.
  - apply (preserves_update ext (handle_is h l));
      [ intros e w' H'; exact H' | intros w' H'; exact H'
      | intros; apply handle_is_update_locksmith ..
      | exact H ].
  - apply (preserves_release ext (handle_is h l));
      [ intros e w' H'; exact H' | intros w' H'; exact H'
      | intros; apply handle_is_update_locksmith ..
      | exact H ].
Qed.

End Properties.

(** ** Threads: one channel under any interleaving *)

Module ThreadFacts.

Import Threads.
#[local] Open Scope nat_scope.

Lemma inside_insert (ps : list pc) (i : nat) (p p' : pc) :
  ps !! i = Some p →
  inside (<[i := p']> ps) + (if in_with p then 1 else 0) =
  inside ps + (if in_with p' then 1 else 0).
Proof.
  unfold inside. revert i. induction ps as [|q ps IH]; intros i Hi.
  { destruct i; discriminate. }
  destruct i as [|i]; simpl in *.
  - simplify_eq. rewrite !filter_cons.
    destruct (in_with p) eqn:Hp, (in_with p') eqn:Hp';
      repeat case_decide; simplify_eq; simpl; try congruence; lia.
  - specialize (IH i Hi). rewrite !filter_cons.
    case_decide; simpl; lia.
Qed.

Lemma inside_two (ps : list pc) (i j : nat) (p q : pc) :
  ps !! i = Some p → ps !! j = Some q →
  in_with p = true → in_with q = true → i ≠ j → 2 ≤ inside ps.
Proof.
  unfold inside. revert i j. induction ps as [|r ps IH]; intros i j Hi Hj Hp Hq Hne.
  { destruct i; discriminate. }
  assert (Hone : ∀ k x, ps !! k = Some x → in_with x = true →
                        1 ≤ length (filter (λ p, in_with p = true) ps)).
  { clear. induction ps as [|r ps IH]; intros k x Hk Hx; [destruct k; discriminate|].
    rewrite filter_cons. destruct k as [|k]; simpl in *.
    - simplify_eq. case_decide; [simpl; lia|congruence].
    - specialize (IH k x Hk Hx). case_decide; simpl; lia. }
  rewrite filter_cons.
  destruct i as [|i], j as [|j]; simpl in *; try congruence.
  - simplify_eq. specialize (Hone j q Hj Hq). case_decide; [simpl; lia|congruence].
  - simplify_eq. specialize (Hone i p Hi Hp). case_decide; [simpl; lia|congruence].
  - assert (i ≠ j) by congruence. specialize (IH i j Hi Hj Hp Hq H).
    case_decide; simpl; lia.
Qed.

Lemma exclusive (st : state) (i j : nat) (p q : pc) :
  inv st → st_pcs st !! i = Some p → st_pcs st !! j = Some q →
  in_with p = true → in_with q = true → i = j.
Proof.
  intros Hinv Hi Hj Hp Hq. destruct (decide (i = j)) as [|Hne]; [assumption|].
  pose proof (inside_two _ _ _ _ _ Hi Hj Hp Hq Hne) as H2.
  rewrite (inv_excl _ Hinv) in H2. destruct (st_held st); lia.
Qed.

Lemma lookup_goto (ps : list pc) (i j : nat) (p p' q : pc) :
  ps !! i = Some p → <[i := p']> ps !! j = Some q →
  (j = i ∧ q = p') ∨ (j ≠ i ∧ ps !! j = Some q).
Proof.
  intros Hi Hj. destruct (decide (j = i)) as [->|Hne].
  - left. split; [reflexivity|].
    rewrite list_lookup_insert_eq in Hj; [congruence|].
    apply lookup_lt_Some in Hi. exact Hi.
  - right. split; [assumption|]. rewrite list_lookup_insert_ne in Hj; auto.
Qed.

Lemma inside_replicate (n : nat) : inside (replicate n AtCheck) = 0.
Proof.
  unfold inside. induction n as [|n IH]; [reflexivity|].
  simpl. rewrite filter_cons. case_decide; [discriminate|exact IH].
Qed.

Lemma start_inv (n : nat) : inv (start n).
Proof.
  assert (Hl : ∀ i p, replicate n AtCheck !! i = Some p → p = AtCheck).
  { intros i p H. apply lookup_replicate in H. tauto. }
  split; simpl.
  - apply inside_replicate.
  - intros i H. apply Hl in H. discriminate.
  - intros i c H. apply Hl in H. discriminate.
  - auto.
  - discriminate.
  - intros i [H|H]; apply Hl in H; discriminate.
  - intros i r H. apply Hl in H. discriminate.
Qed.


Ltac split_lookup Hi :=
  repeat match goal with
  | H : <[_ := _]> _ !! _ = Some _ |- _ =>
      destruct (lookup_goto _ _ _ _ _ _ Hi H) as [[-> ?]|[? ?]]; clear H;
      simplify_eq
  | H : _ ∨ _ |- _ => destruct H
  end.

(** A move that changes nothing but the thread's own position. *)
Lemma goto_inv (st : state) (i : nat) (p p' : pc) :
  inv st → st_pcs st !! i = Some p →
  in_with p' = in_with p →
  (∀ c, p ≠ AtAssign c) →
  (p' = AtConstruct → st_tnt st = None ∧ st_built st = []) →
  (∀ c, p' ≠ AtAssign c) →
  (p' = AtReturn ∨ p' = AtExit None → st_tnt st ≠ None) →
  (∀ r, p' = Returned (Ok r) → r = st_tnt st ∧ st_tnt st ≠ None) →
  inv (goto i p' st).
Proof.
  intros Hinv Hi Hin Hp Hc Ha Hr Hd.
  destruct Hinv as [I1 I2 I3 I4 I5 I6 I7].
  split; simpl.
  - pose proof (inside_insert (st_pcs st) i p p' Hi) as H. rewrite Hin in H. lia.
  - intros j H. split_lookup Hi; eauto.
  - intros j c H. split_lookup Hi; [exfalso; eapply Ha; reflexivity|eauto].
  - intros H. destruct (I4 H) as [?|(j & c & Hj)]; [left; assumption|].
    right. exists j, c. rewrite list_lookup_insert_ne; [assumption|].
    intros ->. rewrite Hi in Hj. simplify_eq. eapply Hp. reflexivity.
  - exact I5.
  - intros j H. split_lookup Hi; eauto.
  - intros j r H. split_lookup Hi; eauto.
Qed.

Lemma step_inv (fail : option exn) (i : nat) (st st' : state) :
  inv st → step fail i st = Some st' → inv st'.
Proof.
  intros Hinv Hstep. unfold step in Hstep.
  destruct (st_pcs st !! i) as [p|] eqn:Hi; [|discriminate].
  destruct p as [| | | |c|exc| |r].
  - (* AtCheck *)
    simplify_eq. apply (goto_inv st i AtCheck); auto; try congruence.
    + destruct (st_tnt st); reflexivity.
    + destruct (st_tnt st); discriminate.
    + destruct (st_tnt st); discriminate.
    + destruct (st_tnt st); [discriminate|]. intros [H|H]; discriminate.
    + destruct (st_tnt st); discriminate.
  - (* AtEnter *)
    destruct (st_held st) eqn:Hheld; simplify_eq.
    destruct Hinv as [I1 I2 I3 I4 I5 I6 I7]. rewrite Hheld in I1.
    split; simpl.
    + pose proof (inside_insert (st_pcs st) i AtEnter AtRecheck Hi) as H.
      simpl in H. lia.
    + intros j H. split_lookup Hi; eauto.
    + intros j c H. split_lookup Hi; eauto.
    + intros H. destruct (I4 H) as [?|(j & c & Hj)]; [left; assumption|].
      right. exists j, c. rewrite list_lookup_insert_ne; [assumption|].
      intros ->. rewrite Hi in Hj. discriminate.
    + exact I5.
    + intros j H. split_lookup Hi; eauto.
    + intros j r H. split_lookup Hi; eauto.
  - (* AtRecheck *)
    simplify_eq. apply (goto_inv st i AtRecheck); auto; try congruence.
    + destruct (st_tnt st); reflexivity.
    + destruct (st_tnt st) eqn:Ht; [discriminate|]. intros _.
      split; [reflexivity|].
      destruct (inv_unset _ Hinv Ht) as [?|(j & c & Hj)]; [assumption|].
      pose proof (exclusive st i j _ _ Hinv Hi Hj eq_refl eq_refl) as ->.
      rewrite Hi in Hj. discriminate.
    + destruct (st_tnt st); discriminate.
    + destruct (st_tnt st); [discriminate|]. intros [H|H]; discriminate.
    + destruct (st_tnt st); discriminate.
  - (* AtConstruct *)
    destruct fail as [e|]; simplify_eq.
    { apply (goto_inv st i AtConstruct); auto; try congruence.
      intros [H|H]; discriminate. }
    destruct (inv_construct _ Hinv i Hi) as [Ht Hb].
    assert (Hother : ∀ j q, j ≠ i → st_pcs st !! j = Some q → in_with q = false).
    { intros j q Hne Hj. destruct (in_with q) eqn:Hq; [|reflexivity].
      pose proof (exclusive st i j _ _ Hinv Hi Hj eq_refl Hq). congruence. }
    destruct Hinv as [I1 I2 I3 I4 I5 I6 I7].
    split; simpl.
    + pose proof (inside_insert (st_pcs st) i AtConstruct
                    (AtAssign (st_next st)) Hi) as H.
      simpl in H. lia.
    + intros j H. split_lookup Hi.
      match goal with H : _ !! j = Some AtConstruct |- _ =>
        apply Hother in H; [discriminate|assumption] end.
    + intros j c H. split_lookup Hi.
      * rewrite Hb. auto.
      * match goal with H : _ !! j = Some (AtAssign c) |- _ =>
          apply Hother in H; [discriminate|assumption] end.
    + intros _. right. exists i, (st_next st).
      apply list_lookup_insert_eq. apply lookup_lt_Some in Hi. exact Hi.
    + intros c H. congruence.
    + intros j H. split_lookup Hi; eauto.
    + intros j r H. split_lookup Hi; eauto.
  - (* AtAssign *)
    simplify_eq.
    destruct (inv_assign _ Hinv i c Hi) as [Ht Hb].
    assert (Hother : ∀ j q, j ≠ i → st_pcs st !! j = Some q → in_with q = false).
    { intros j q Hne Hj. destruct (in_with q) eqn:Hq; [|reflexivity].
      pose proof (exclusive st i j _ _ Hinv Hi Hj eq_refl Hq). congruence. }
    destruct Hinv as [I1 I2 I3 I4 I5 I6 I7].
    split; simpl.
    + pose proof (inside_insert (st_pcs st) i (AtAssign c) (AtExit None) Hi) as H.
      simpl in H. lia.
    + intros j H. split_lookup Hi.
      match goal with H : _ !! j = Some AtConstruct |- _ =>
        apply Hother in H; [discriminate|assumption] end.
    + intros j c' H. split_lookup Hi.
      match goal with H : _ !! j = Some (AtAssign c') |- _ =>
        apply Hother in H; [discriminate|assumption] end.
    + discriminate.
    + intros c' H. congruence.
    + intros j H. discriminate.
    + intros j r H. split_lookup Hi.
      match goal with H : _ !! j = Some (Returned _) |- _ =>
        apply I7 in H; tauto end.
  - (* AtExit *)
    simplify_eq.
    assert (Hheld : st_held st = true).
    { pose proof (inv_excl _ Hinv) as H.
      destruct (st_held st); [reflexivity|].
      assert (1 ≤ inside (st_pcs st)); [|lia].
      pose proof (inside_insert (st_pcs st) i (AtExit exc) AtCheck Hi) as H'.
      simpl in H'. lia. }
    destruct Hinv as [I1 I2 I3 I4 I5 I6 I7]. rewrite Hheld in I1.
    split; simpl.
    + pose proof (inside_insert (st_pcs st) i (AtExit exc)
                    (match exc with
                     | Some e => Returned (Raise e)
                     | None => AtReturn
                     end) Hi) as H.
      destruct exc; simpl in H; lia.
    + intros j H. split_lookup Hi; [destruct exc; discriminate|eauto].
    + intros j c H. split_lookup Hi; [destruct exc; discriminate|eauto].
    + intros H. destruct (I4 H) as [?|(j & c & Hj)]; [left; assumption|].
      right. exists j, c. rewrite list_lookup_insert_ne; [assumption|].
      intros ->. rewrite Hi in Hj. discriminate.
    + exact I5.
    + intros j H. split_lookup Hi; eauto; destruct exc; simplify_eq; eauto.
    + intros j r H. split_lookup Hi; eauto; destruct exc; simplify_eq.
  - (* AtReturn *)
    simplify_eq. apply (goto_inv st i AtReturn); auto; try congruence.
    + intros [H|H]; discriminate.
    + intros r H. simplify_eq. split; [reflexivity|].
      apply (inv_after _ Hinv i). left. exact Hi.
  - discriminate.
Qed.

Lemma run_inv (sched : list (nat * option exn)) (st : state) :
  inv st → inv (run sched st).
Proof.
  revert st. induction sched as [|[i fail] rest IH]; intros st Hinv; [exact Hinv|].
  simpl. destruct (step fail i st) as [st'|] eqn:Hstep.
  - apply IH. apply (step_inv fail i st st' Hinv Hstep).
  - apply IH. exact Hinv.
Qed.

(** X2.  Whatever the interleaving of [n] threads that all read the [tnt]
    property of a coordinator whose channel is not yet open, at most one
    channel gets built, and every thread that returns gets that one. *)
Theorem one_channel_under_interleaving
  (n : nat) (sched : list (nat * option exn)) :
  let st := run sched (start n) in
  length (st_built st) ≤ 1 ∧
  ∀ i r, st_pcs st !! i = Some (Returned (Ok r)) →
         ∃ c, r = Some c ∧ st_built st = [c].
Proof.
  intros st. pose proof (run_inv sched (start n) (start_inv n)) as Hinv.
  fold st in Hinv. split.
  - destruct (st_tnt st) as [c|] eqn:Ht.
    + rewrite (inv_set _ Hinv c Ht). simpl. lia.
    + destruct (inv_unset _ Hinv Ht) as [->|(j & c & Hj)]; [simpl; lia|].
      destruct (inv_assign _ Hinv j c Hj) as [_ ->]. simpl. lia.
  - intros i r Hi. destruct (inv_returned _ Hinv i r Hi) as [-> Hne].
    destruct (st_tnt st) as [c|] eqn:Ht; [|congruence].
    exists c. split; [reflexivity|]. apply (inv_set _ Hinv c Ht).
Qed.


(** Two threads race through the property; the second one waits at the
    lock, then finds the channel of the first. *)
Example two_threads_share_one_channel :
  let st := run [(0, None); (1, None); (0, None); (1, None); (0, None);
                 (0, None); (0, None); (1, None); (0, None); (0, None);
                 (1, None); (1, None); (1, None); (1, None)] (start 2) in
  st_built st = [0] ∧
  st_pcs st = [Returned (Ok (Some 0)); Returned (Ok (Some 0))].
Proof. vm_compute. split; reflexivity. Qed.

End ThreadFacts.

(** * The model at work *)

(** ** The session of the module docstring, against the simulated
    authority *)

Example docstring_session :
  let '(lock1, w1) :=
    Locksmith_acquire sim 1 (PStr "foo") (PInt 60) PNone demo_world in
  let '(lock2, w2) :=
    Locksmith_acquire sim 1 (PStr "foo") (PInt 60) (PInt 0) w1 in
  let '(upd, w3) := Lock_update sim 3 (PInt 30) w2 in
  let '(rel1, w4) := Lock_release sim 3 w3 in
  let '(rel2, w5) := Lock_release sim 3 w4 in
  lock1 = Ok (Some 3) ∧
  lock_at w1 3 =
    Some {| locksmith := 1; name := PStr "foo"; uid := PStr "lease-1" |} ∧
  lock2 = Ok None ∧ upd = Ok true ∧ rel1 = Ok true ∧ rel2 = Ok false ∧
  constructed (trace w5) = [2].
Proof. vm_compute. repeat split; reflexivity. Qed.

(** A successful reply that is too short to hold a name and a uid makes
    [acquire] raise [IndexError]. *)
Example acquire_short_reply :
  fst (Locksmith_acquire
         {| ext_init := fun _ _ _ _ _ _ _ => None;
            ext_call := fun _ _ _ _ => Ok (PList [PTuple [PBool true]]);
            ext_enter := fun _ _ => None;
            ext_exit := fun _ _ _ => Ok false |}
         1 (PStr "foo") (PInt 60) PNone demo_world)
  = Raise (IndexError "tuple index out of range").
Proof. vm_compute. reflexivity. Qed.

(** The constructor on the arguments it should refuse, and on good
    ones. *)
Example init_empty_host :
  fst (Locksmith_init (PStr "") (PInt 33013) PNone PNone default_timeout
                      empty_world)
  = Raise (AttributeError
             "type object 'Lock' has no attribute 'BadConfigException'").
Proof. vm_compute. reflexivity. Qed.

Example init_port_zero :
  fst (Locksmith_init default_host (PInt 0) PNone PNone default_timeout
                      empty_world)
  = Raise (AttributeError
             "type object 'Lock' has no attribute 'BadConfigException'").
Proof. vm_compute. reflexivity. Qed.

Example init_port_string :
  fst (Locksmith_init default_host (PStr "33013") PNone PNone default_timeout
                      empty_world)
  = Raise (AttributeError
             "type object 'Lock' has no attribute 'BadConfigException'").
Proof. vm_compute. reflexivity. Qed.

Example init_defaults :
  fst (Locksmith_init default_host default_port PNone PNone default_timeout
                      empty_world)
  = Ok 1.
Proof. vm_compute. reflexivity. Qed.

(** Had the [raise] statements named [Locksmith], the lookup would have
    found the exception class. *)
Example BadConfigException_is_on_Locksmith :
  fst (@raise_from unit ClsLocksmith "BadConfigException" "Port must be int"
                   empty_world)
  = Raise (BadConfigException "Port must be int").
Proof. vm_compute. reflexivity. Qed.

(** ** The theorems on concrete worlds *)

Lemma acquire_returns_handle_or_none_witness :
  ∃ h w3,
    Locksmith_acquire sim 1 (PStr "foo") (PInt 60) PNone demo_world
      = (Ok (Some h), w3) ∧
    lock_at w3 h =
      Some {| locksmith := 1; name := PStr "foo"; uid := PStr "lease-1" |}.
Proof.
  refine (proj1 (acquire_returns_handle_or_none sim 1 (PStr "foo") (PInt 60)
                   PNone demo_world connected_world 2 (PList [foo_tuple])
                   foo_tuple (PStr "lease-1") _ _ _ _)
                _ (PStr "foo") (PStr "lease-1") _ _).
  - vm_compute. reflexivity.
  - vm_compute. reflexivity.
  - reflexivity.
  - reflexivity.
  - discriminate.
  - reflexivity.
  - reflexivity.
Defined.

Lemma update_release_true_iff_present_witness :
  fst (Locksmith_update sim 1 (PStr "lease-1") (PInt 30) held_world) = Ok true ∧
  fst (Locksmith_release sim 1 (PStr "lease-1") held_world) = Ok true.
Proof.
  destruct (update_release_true_iff_present sim 1 (PStr "lease-1") (PInt 30)
              held_world held_world 2
              (PList [PTuple [PStr "lease-1"]]) (PTuple [PStr "lease-1"])
              (PStr "lease-1")
              (PList [PTuple [PStr "lease-1"]]) (PTuple [PStr "lease-1"])
              (PStr "lease-1"))
    as [(bu & wu & Hu & Hiff_u & _) (br & wr & Hr & Hiff_r & _)];
    try (vm_compute; reflexivity).
  rewrite Hu, Hr. simpl. split; f_equal.
  - apply Hiff_u. discriminate.
  - apply Hiff_r. discriminate.
Defined.

Lemma acquire_call_shape_witness :
  ∃ args : list pyval,
    (PInt 0 = PNone → args = [PStr "foo"; PInt 60]) ∧
    (PInt 0 ≠ PNone → args = [PStr "foo"; PInt 60; PInt 0]) ∧
    trace (snd (Locksmith_acquire sim 1 (PStr "foo") (PInt 60) (PInt 0)
                                  held_world)) =
    (trace held_world ++
       [EvCall 2 "locksmith:acquire" [PTuple args]
          (ext_call sim (trace held_world) 2 "locksmith:acquire"
                    [PTuple args])])%list.
Proof.
  apply (acquire_call_shape sim 1 (PStr "foo") (PInt 60) (PInt 0)
           held_world held_world 2).
  vm_compute. reflexivity.
Defined.

Lemma channel_constructed_once_witness :
  ∃ c w1,
    Locksmith_tnt sim 1 demo_world = (Ok (Some c), w1) ∧
    trace w1 = (trace demo_world ++
                first_use (ThreadingLock 0) TarantoolConnection
                          demo_coordinator c false)%list ∧
    constructed (trace w1) = (constructed (trace demo_world) ++ [c])%list ∧
    locksmith_at w1 1 = Some (with_tnt (Some c) demo_coordinator) ∧
    (∀ w2 s2, locksmith_at w2 1 = Some s2 → _tnt s2 = Some c →
              Locksmith_tnt sim 1 w2 = (Ok (Some c), w2)) ∧
    (∀ n, tnt_accesses sim n 1 w1 = (Ok tt, w1)) ∧
    (∀ n, ∃ new,
        constructed (trace (snd (tnt_accesses sim n 1 demo_world)))
        = (constructed (trace demo_world) ++ new)%list ∧ (length new ≤ 1)%nat).
Proof.
  apply (channel_constructed_once sim 1 demo_world demo_coordinator
           (ThreadingLock 0) TarantoolConnection false).
  - vm_compute. reflexivity.
  - reflexivity.
  - reflexivity.
  - reflexivity.
  - repeat split; reflexivity.
Defined.

Lemma init_invalid_raises_AttributeError_witness :
  Locksmith_init (PStr "") (PInt 33013) PNone PNone default_timeout empty_world
  = (Raise (AttributeError
              "type object 'Lock' has no attribute 'BadConfigException'"),
     empty_world).
Proof.
  apply (init_invalid_raises_AttributeError (PStr "") (PInt 33013) PNone PNone
           default_timeout empty_world).
  left. reflexivity.
Defined.

Lemma substitutes_without_capability_rejected_witness :
  Locksmith_set_tarantool_connection 1 (Some plain_object) connected_world =
    (Raise (TypeError
       "Connection class must have connect and call methods or be None"),
     connected_world) ∧
  Locksmith_set_tarantool_lock 1 (Some plain_object) connected_world =
    (Raise (TypeError
       "Lock class must have `__enter__` and `__exit__` methods or be None"),
     connected_world).
Proof.
  apply (substitutes_without_capability_rejected 1 plain_object plain_object
           connected_world); reflexivity.
Defined.

Lemma none_resets_to_defaults_witness :
  fst (Locksmith_tarantool_connection 1 unset_world) = Ok TarantoolConnection ∧
  fst (Locksmith_tarantool_lock 1 unset_world) = Ok (ThreadingLock 2) ∧
  (∃ w1, Locksmith_set_tarantool_connection 1 None unset_world = (Ok tt, w1) ∧
         (_conclass <$> locksmith_at w1 1) = Some (Some TarantoolConnection)) ∧
  (∃ w2, Locksmith_set_tarantool_lock 1 None unset_world = (Ok tt, w2) ∧
         (_lockinst <$> locksmith_at w2 1) = Some (Some (ThreadingLock 2))).
Proof.
  destruct (none_resets_to_defaults 1 unset_world
              (with_conclass None (with_lockinst None demo_coordinator)))
    as ((w1 & Hc & Hc') & (w2 & Hl & Hl') & Hgc & Hgl);
    [vm_compute; reflexivity|].
  destruct (Hgc eq_refl) as (w3 & -> & _).
  destruct (Hgl eq_refl) as (w4 & -> & _).
  split; [reflexivity|]. split; [reflexivity|]. split.
  - exists w1. rewrite Hc'. split; [exact Hc|reflexivity].
  - exists w2. rewrite Hl'. split; [exact Hl|reflexivity].
Defined.

Lemma statistics_first_of_first_witness :
  Locksmith_statistics sim 1 held_world =
  (Ok (PDict [(PStr "held", PBool true)]),
   logged held_world
     (EvCall 2 "locksmith:statistics" []
        (Ok (PList [PTuple [PDict [(PStr "held", PBool true)]]])))).
Proof.
  apply (statistics_first_of_first sim 1 held_world held_world 2
           (PList [PTuple [PDict [(PStr "held", PBool true)]]])
           (PTuple [PDict [(PStr "held", PBool true)]])
           (PDict [(PStr "held", PBool true)]));
    vm_compute; reflexivity.
Defined.

Lemma handle_delegates_witness :
  Lock_update sim 3 (PInt 30) held_world =
    Locksmith_update sim 1 (PStr "lease-1") (PInt 30) held_world ∧
  Lock_release sim 3 held_world =
    Locksmith_release sim 1 (PStr "lease-1") held_world ∧
  lock_at (snd (Lock_update sim 3 (PInt 30) held_world)) 3 =
    Some {| locksmith := 1; name := PStr "foo"; uid := PStr "lease-1" |} ∧
  lock_at (snd (Lock_release sim 3 held_world)) 3 =
    Some {| locksmith := 1; name := PStr "foo"; uid := PStr "lease-1" |}.
Proof.
  apply (handle_delegates sim 3
           {| locksmith := 1; name := PStr "foo"; uid := PStr "lease-1" |}
           (PInt 30) held_world).
  vm_compute. reflexivity.
Defined.

Lemma connection_setter_drops_channel_lock_setter_keeps_it_witness :
  (∃ w1 c w2,
     Locksmith_set_tarantool_connection 1 (Some FakeConnection) connected_world
       = (Ok tt, w1) ∧
     (_tnt <$> locksmith_at w1 1) = Some None ∧
     Locksmith_tnt sim 1 w1 = (Ok (Some c), w2) ∧
     constructed (trace w2) = [2; c]) ∧
  fst (Locksmith_tnt sim 1
         (snd (Locksmith_set_tarantool_lock 1 (Some an_rlock) connected_world)))
  = Ok (Some 2).
Proof.
  destruct (connection_setter_drops_channel_lock_setter_keeps_it sim 1
              connected_world (with_tnt (Some 2) demo_coordinator)
              (Some FakeConnection) (Some an_rlock) (ThreadingLock 0) false)
    as ((w1 & Hset & Hat & Hnext) & (s3 & _ & _ & _ & Hkeep));
    try (vm_compute; reflexivity).
  split.
  - assert (Htr : trace w1 = trace connected_world ∧ next_id w1 = 3).
    { revert Hset. vm_compute. intros H. injection H as <-. split; reflexivity. }
    destruct Htr as [Htr Hid].
    destruct Hnext as (c & w2 & Htnt & _ & Hcons).
    { rewrite Htr, Hid. repeat split; reflexivity. }
    exists w1, c, w2. split; [exact Hset|]. rewrite Hat.
    split; [reflexivity|]. split; [exact Htnt|].
    rewrite Hcons, Htr. reflexivity.
  - rewrite (Hkeep 2 eq_refl). reflexivity.
Defined.

(** * Further properties of the two classes *)

Section MoreProperties.

Context (ext : Extern).

Lemma statistics_after_tnt self w c w1 :
  Locksmith_tnt ext self w = (Ok (Some c), w1) →
  Locksmith_statistics ext self w =
  (let r := ext_call ext (trace w1) c "locksmith:statistics" [] in
   let w2 := logged w1 (EvCall c "locksmith:statistics" [] r) in
   match r with
   | Raise e => (Raise e, w2)
   | Ok reply =>
     match getitem reply 0 with
     | Raise e => (Raise e, w2)
     | Ok the_tuple =>
       match getitem the_tuple 0 with
       | Raise e => (Raise e, w2)
       | Ok v => (Ok v, w2)
       end
     end
   end).
Proof.
  intros H. unfold Locksmith_statistics, call. unfold_monad. rewrite H. simpl.
  destruct (ext_call _ _ _ _ _) as [reply|e]; [|reflexivity].
  destruct (getitem reply 0) as [t|e]; [|reflexivity].
  destruct (getitem t 0) as [ok|e]; reflexivity.
Qed.

(** What an operation does when the channel cannot be had. *)
Lemma no_channel_no_call self w e w1 :
  Locksmith_tnt ext self w = (Raise e, w1) →
  (∀ n v t, Locksmith_acquire ext self n v t w = (Raise e, w1)) ∧
  (∀ u v, Locksmith_update ext self u v w = (Raise e, w1)) ∧
  (∀ u, Locksmith_release ext self u w = (Raise e, w1)) ∧
  Locksmith_statistics ext self w = (Raise e, w1).
Proof.
  intros H.
  unfold Locksmith_acquire, Locksmith_update, Locksmith_release,
    Locksmith_statistics.
  unfold_monad. rewrite H. repeat split; reflexivity.
Qed.

Lemma tnt_fails (w : World) (self : loc) (s : Locksmith)
  (lk : lockinst) (cls : conclass) (e : exn) (swallow : bool) :
  locksmith_at w self = Some s →
  _tnt s = None → _lockinst s = Some lk → _conclass s = Some cls →
  fails_to_open ext (trace w) lk cls s e swallow →
  Locksmith_tnt ext self w =
  ((if swallow then Ok None else Raise e),
   logged_all w (failed_use lk cls s e swallow)).
Proof.
  intros Hs Ht Hl Hc (Henter & Hinit & Hexit).
  assert (Hr : ∀ n tr, read_locksmith self
             {| heap := heap w; next_id := n; trace := tr |} =
           (Ok s, {| heap := heap w; next_id := n; trace := tr |})).
  { intros n tr. apply read_locksmith_at. exact Hs. }
  unfold Locksmith_tnt, Locksmith_tarantool_lock, Locksmith_tarantool_connection,
    with_, lock_enter, lock_exit, instantiate, update_locksmith.
  unfold_monad.
  pose proof (read_locksmith_at _ _ _ Hs) as Hw.
  repeat (first [rewrite Hw | rewrite Hr | rewrite Ht | rewrite Hl
                | rewrite Hc | rewrite Henter | rewrite Hinit]; simpl).
  unfold logged_all, failed_use. rewrite <- !app_assoc in *. simpl in *.
  rewrite Hexit. simpl.
  destruct swallow; simpl; [|reflexivity].
  rewrite Hr, Ht. reflexivity.
Qed.

(** X5.  A constructor that raises.  With a lock that does not swallow
    exceptions (as [threading.Lock] does not), the access to [tnt]
    raises what the constructor raised, after leaving the lock; the
    coordinator is as before, so nothing is remembered of the failure and
    the next access instantiates again; and each of the four operations
    raises the same exception without sending anything. *)
Theorem failed_construction_propagates_and_is_not_cached
  (w : World) (self : loc) (s : Locksmith) (lk : lockinst) (cls : conclass)
  (e : exn) :
  locksmith_at w self = Some s →
  _tnt s = None → _lockinst s = Some lk → _conclass s = Some cls →
  fails_to_open ext (trace w) lk cls s e false →
  let w1 := logged_all w (failed_use lk cls s e false) in
  Locksmith_tnt ext self w = (Raise e, w1) ∧
  locksmith_at w1 self = Some s ∧
  (∀ n v t, Locksmith_acquire ext self n v t w = (Raise e, w1)) ∧
  (∀ u v, Locksmith_update ext self u v w = (Raise e, w1)) ∧
  (∀ u, Locksmith_release ext self u w = (Raise e, w1)) ∧
  Locksmith_statistics ext self w = (Raise e, w1) ∧
  (∀ b, opens_cleanly ext (trace w1) lk cls s (next_id w1) b →
        Locksmith_tnt ext self w1 =
        (Ok (Some (next_id w1)),
         {| heap := <[self := OLocksmith (with_tnt (Some (next_id w1)) s)]>
                      (heap w1);
            next_id := S (next_id w1);
            trace := trace w1 ++ first_use lk cls s (next_id w1) b |})).
Proof.
  intros Hs Ht Hl Hc Hfail w1.
  pose proof (tnt_fails w self s lk cls e false Hs Ht Hl Hc Hfail) as Htnt.
  simpl in Htnt. fold w1 in Htnt.
  destruct (no_channel_no_call self w e w1 Htnt) as (Ha & Hu & Hr & Hst).
  repeat split; try assumption.
  intros b Hopen.
  apply (tnt_first ext w1 self s lk cls b); assumption.
Qed.

(** X6.  A lock object whose [__exit__] answers true swallows the
    constructor's exception: the [tnt] property then returns [None], and
    each operation fails on [None.call] with an [AttributeError] instead
    of the constructor's exception. *)
Theorem swallowing_lock_hides_connection_error
  (w : World) (self : loc) (s : Locksmith) (lk : lockinst) (cls : conclass)
  (e : exn) :
  locksmith_at w self = Some s →
  _tnt s = None → _lockinst s = Some lk → _conclass s = Some cls →
  fails_to_open ext (trace w) lk cls s e true →
  let w1 := logged_all w (failed_use lk cls s e true) in
  let err := AttributeError "'NoneType' object has no attribute 'call'" in
  Locksmith_tnt ext self w = (Ok None, w1) ∧
  (∀ n v t, Locksmith_acquire ext self n v t w = (Raise err, w1)) ∧
  (∀ u v, Locksmith_update ext self u v w = (Raise err, w1)) ∧
  (∀ u, Locksmith_release ext self u w = (Raise err, w1)) ∧
  Locksmith_statistics ext self w = (Raise err, w1).
Proof.
  intros Hs Ht Hl Hc Hfail w1 err.
  pose proof (tnt_fails w self s lk cls e true Hs Ht Hl Hc Hfail) as Htnt.
  simpl in Htnt. fold w1 in Htnt.
  unfold Locksmith_acquire, Locksmith_update, Locksmith_release,
    Locksmith_statistics, call.
  unfold_monad. rewrite Htnt. repeat split; reflexivity.
Qed.



(** X9.  [update] sends exactly one [locksmith:update] call with the pair
    [(lock_uid, validity)] and [release] exactly one [locksmith:release]
    call with the one-element tuple [(lock_uid,)]; whatever comes back,
    that logged call is the only difference between the world after the
    channel access and the world after the operation. *)
Theorem update_release_call_shape
  (self : loc) (lock_uid validity : pyval) (w w1 : World) (c : conn) :
  Locksmith_tnt ext self w = (Ok (Some c), w1) →
  snd (Locksmith_update ext self lock_uid validity w) =
    logged w1 (EvCall c "locksmith:update" [PTuple [lock_uid; validity]]
                 (ext_call ext (trace w1) c "locksmith:update"
                           [PTuple [lock_uid; validity]])) ∧
  snd (Locksmith_release ext self lock_uid w) =
    logged w1 (EvCall c "locksmith:release" [PTuple [lock_uid]]
                 (ext_call ext (trace w1) c "locksmith:release"
                           [PTuple [lock_uid]])).
Proof.
  intros Htnt. split.
  - rewrite (update_after_tnt ext _ _ _ _ _ _ Htnt). cbv zeta.
    destruct (ext_call _ _ _ _ _) as [reply|e]; [|reflexivity].
    destruct (getitem reply 0) as [t|e]; [|reflexivity].
    destruct (getitem t 0) as [ok|e]; reflexivity.
  - rewrite (release_after_tnt ext _ _ _ _ _ Htnt). cbv zeta.
    destruct (ext_call _ _ _ _ _) as [reply|e]; [|reflexivity].
    destruct (getitem reply 0) as [t|e]; [|reflexivity].
    destruct (getitem t 0) as [ok|e]; reflexivity.
Qed.

(** X10.  On a first use the lock is left before anything is sent: the
    trace of an operation on a coordinator without channel is enter,
    instantiate, exit, and only then the call, made on the channel just
    built. *)
Theorem lock_released_before_call
  (self : loc) (w : World) (s : Locksmith) (lk : lockinst) (cls : conclass)
  (b : bool) :
  locksmith_at w self = Some s →
  _tnt s = None → _lockinst s = Some lk → _conclass s = Some cls →
  opens_cleanly ext (trace w) lk cls s (next_id w) b →
  let c := next_id w in
  let opened := (trace w ++ first_use lk cls s c b)%list in
  (∀ n v t,
     trace (snd (Locksmith_acquire ext self n v t w)) =
     (opened ++ [EvCall c "locksmith:acquire" [PTuple (acquire_args n v t)]
                   (ext_call ext opened c "locksmith:acquire"
                             [PTuple (acquire_args n v t)])])%list) ∧
  (∀ u v,
     trace (snd (Locksmith_update ext self u v w)) =
     (opened ++ [EvCall c "locksmith:update" [PTuple [u; v]]
                   (ext_call ext opened c "locksmith:update"
                             [PTuple [u; v]])])%list) ∧
  (∀ u,
     trace (snd (Locksmith_release ext self u w)) =
     (opened ++ [EvCall c "locksmith:release" [PTuple [u]]
                   (ext_call ext opened c "locksmith:release"
                             [PTuple [u]])])%list) ∧
  trace (snd (Locksmith_statistics ext self w)) =
     (opened ++ [EvCall c "locksmith:statistics" []
                   (ext_call ext opened c "locksmith:statistics" [])])%list.
Proof.
  intros Hs Ht Hl Hc Hopen c opened.
  pose proof (tnt_first ext w self s lk cls b Hs Ht Hl Hc Hopen) as Htnt.
  repeat split; intros.
  - rewrite (acquire_after_tnt ext _ _ _ _ _ _ _ Htnt). cbv zeta. simpl.
    fold c. fold opened.
    destruct (ext_call _ _ _ _ _) as [reply|e]; [|reflexivity].
    destruct (getitem reply 0) as [t'|e]; [|reflexivity].
    destruct (getitem t' 0) as [ok|e]; [|reflexivity].
    destruct (is_not_None ok); [|reflexivity].
    destruct (getitem t' 1) as [n'|e]; [|reflexivity].
    destruct (getitem t' 2) as [u'|e]; reflexivity.
  - rewrite (update_after_tnt ext _ _ _ _ _ _ Htnt). cbv zeta. simpl.
    fold c. fold opened.
    destruct (ext_call _ _ _ _ _) as [reply|e]; [|reflexivity].
    destruct (getitem reply 0) as [t'|e]; [|reflexivity].
    destruct (getitem t' 0) as [ok|e]; reflexivity.
  - rewrite (release_after_tnt ext _ _ _ _ _ Htnt). cbv zeta. simpl.
    fold c. fold opened.
    destruct (ext_call _ _ _ _ _) as [reply|e]; [|reflexivity].
    destruct (getitem reply 0) as [t'|e]; [|reflexivity].
    destruct (getitem t' 0) as [ok|e]; reflexivity.
  - rewrite (statistics_after_tnt _ _ _ _ Htnt). cbv zeta. simpl.
    fold c. fold opened.
    destruct (ext_call _ _ _ _ _) as [reply|e]; [|reflexivity].
    destruct (getitem reply 0) as [t'|e]; [|reflexivity].
    destruct (getitem t' 0) as [ok|e]; reflexivity.
Qed.



Lemma construction_valid (h p u pw t : pyval) (w : World) :
  valid_config h p = true →
  let s := {| host := h; port := p; user := u; password := pw;
              timeout := t; tubes := [];
              _lockinst := Some (ThreadingLock (next_id w));
              _conclass := Some TarantoolConnection;
              _tnt := None |} in
  let w1 := {| heap := <[S (next_id w) := OLocksmith s]> (heap w);
               next_id := S (S (next_id w));
               trace := trace w |} in
  Locksmith_init h p u pw t w = (Ok (S (next_id w)), w1) ∧
  locksmith_at w1 (S (next_id w)) = Some s.
Proof.
  unfold valid_config, Locksmith_init, threading_Lock. unfold_monad.
  intros H. destruct (truthy h); [|discriminate].
  destruct (truthy p); [|discriminate].
  destruct (isinstance_int p); [|discriminate].
  split; [reflexivity|apply locksmith_at_insert].
Qed.

(** X11.  The constructor accepts exactly a truthy host with a truthy port
    that is an [int] (so a negative port and [True] pass, and [0] and a
    string do not).  An accepted construction stores the five settings,
    [tarantool.Connection], a new [threading.Lock()] and no channel, and
    interacts with nothing: the trace is unchanged.  A refused one leaves
    no object behind. *)
Theorem construction_succeeds_iff_valid
  (h p u pw t : pyval) (w : World) :
  (valid_config h p = true →
   Locksmith_init h p u pw t w =
   (Ok (S (next_id w)),
    {| heap := <[S (next_id w) := OLocksmith
                   {| host := h; port := p; user := u; password := pw;
                      timeout := t; tubes := [];
                      _lockinst := Some (ThreadingLock (next_id w));
                      _conclass := Some TarantoolConnection;
                      _tnt := None |}]> (heap w);
       next_id := S (S (next_id w));
       trace := trace w |})) ∧
  (valid_config h p = false →
   ∃ e, Locksmith_init h p u pw t w = (Raise e, w)) ∧
  (truthy h = true →
   (∀ z, (z ≠ 0)%Z → valid_config h (PInt z) = true) ∧
   valid_config h (PBool true) = true).
Proof.
  unfold valid_config, Locksmith_init, threading_Lock. unfold_monad.
  repeat split.
  - intros H. destruct (truthy h); [|discriminate].
    destruct (truthy p); [|discriminate].
    destruct (isinstance_int p); [|discriminate]. reflexivity.
  - intros H. destruct (truthy h); [|eexists; reflexivity].
    destruct (truthy p); [|eexists; reflexivity].
    destruct (isinstance_int p); [discriminate|eexists; reflexivity].
  - intros z Hz. simpl. rewrite H. simpl.
    destruct (Z.eqb_spec z 0); [contradiction|reflexivity].
  - simpl. rewrite H. reflexivity.
Qed.

(** X12.  A coordinator just constructed, on its first use, instantiates
    [tarantool.Connection] with the very host, port, user, password and
    timeout the constructor was given, between entering and leaving the
    [threading.Lock] that the constructor made. *)
Theorem fresh_coordinator_first_use
  (h p u pw t : pyval) (w : World) :
  valid_config h p = true →
  let lk := ThreadingLock (next_id w) in
  let self := S (next_id w) in
  let c := S (S (next_id w)) in
  ext_init ext (trace w ++ [EvEnter lk None]) TarantoolConnection h p u pw t
    = None →
  ∃ w1, Locksmith_init h p u pw t w = (Ok self, w1) ∧
  ∃ w2, Locksmith_tnt ext self w1 = (Ok (Some c), w2) ∧
        trace w2 =
        (trace w ++ [EvEnter lk None;
                     EvInit TarantoolConnection h p u pw t (Ok c);
                     EvExit lk None (Ok false)])%list.
Proof.
  intros Hvalid lk self c Hinit.
  destruct (construction_valid h p u pw t w Hvalid) as [Hrun Hat].
  eexists. split; [exact Hrun|].
  eexists. split.
  - apply (tnt_first ext _ self _ lk TarantoolConnection false Hat);
      try reflexivity.
    repeat split; [exact Hinit].
  - reflexivity.
Qed.

(** X13.  What a setter accepted is what the getter returns, and the getter
    then changes nothing. *)
Theorem setter_getter_round_trip
  (self : loc) (w : World) (s : Locksmith) (vc : option pyobj) (o : pyobj) :
  locksmith_at w self = Some s →
  accepted_class vc = true →
  accepted_lock (Some o) = true →
  (let w1 := snd (Locksmith_set_tarantool_connection self vc w) in
   Locksmith_tarantool_connection self w1 = (Ok (class_of vc), w1)) ∧
  (let w2 := snd (Locksmith_set_tarantool_lock self (Some o) w) in
   Locksmith_tarantool_lock self w2 = (Ok (CustomLock o), w2)) ∧
  (let w3 := snd (Locksmith_set_tarantool_lock self None w) in
   Locksmith_tarantool_lock self w3 = (Ok (ThreadingLock (next_id w)), w3)).
Proof.
  intros Hs Hvc Hvl. repeat split.
  - rewrite (set_connection_accepted self vc w s Hs Hvc). simpl.
    unfold Locksmith_tarantool_connection. unfold mbind, M_bind.
    rewrite (read_locksmith_at _ _ _ (locksmith_at_insert _ _ _ _ _)).
    reflexivity.
  - destruct (set_lock_accepted self (Some o) w s Hs Hvl)
      as (lk & w' & -> & Hat & _ & ->). simpl.
    unfold Locksmith_tarantool_lock. unfold mbind, M_bind.
    rewrite (read_locksmith_at _ _ _ Hat). reflexivity.
  - destruct (set_lock_accepted self None w s Hs eq_refl)
      as (lk & w' & -> & Hat & _ & ->). simpl.
    unfold Locksmith_tarantool_lock. unfold mbind, M_bind.
    rewrite (read_locksmith_at _ _ _ Hat). reflexivity.
Qed.



(** *** Handles across whole client programs *)

Lemma handle_kept_update_locksmith (h : loc) (l : Lock) (self : loc)
  (f : Locksmith → Locksmith) :
  preserves (handle_kept h l) (update_locksmith self f).
Proof.
  intros w (Hwf & H). unfold update_locksmith, read_locksmith, store, handle_kept.
  unfold_monad. unfold lock_at, wf in *.
  destruct (heap w !! self) as [[s|l']|] eqn:Hs; simpl; auto.
  split.
  - intros a o Ha. destruct (decide (a = self)) as [->|Hne].
    + eapply Hwf. exact Hs.
    + rewrite lookup_insert_ne in Ha by congruence. eapply Hwf. exact Ha.
  - rewrite lookup_insert_ne; [exact H|].
    intros ->. rewrite Hs in H. discriminate.
Qed.

Lemma handle_kept_alloc (h : loc) (l : Lock) (o : object) :
  preserves (handle_kept h l) (alloc o).
Proof.
  intros w (Hwf & H). unfold handle_kept. unfold_monad. simpl.
  unfold lock_at, wf in *. simpl. split.
  - intros a o' Ha. destruct (decide (a = next_id w)) as [->|Hne]; [lia|].
    rewrite lookup_insert_ne in Ha by congruence. apply Hwf in Ha. lia.
  - destruct (heap w !! h) as [o0|] eqn:H0; [|discriminate].
    pose proof (Hwf _ _ H0) as Hlt.
    rewrite lookup_insert_ne by lia. rewrite H0. exact H.
Qed.

(** X14.  No method of either class assigns to an attribute of a handle:
    whatever a client program does, with any coordinator and any handle,
    a handle keeps its coordinator, its name and its uid. *)
Theorem handles_never_change
  (h : loc) (l : Lock) (w : World) (ops : list op) :
  wf w → lock_at w h = Some l →
  lock_at (snd (perform_all ext ops w)) h = Some l.
Proof.
  intros Hwf H.
  assert (Hkeep : preserves (handle_kept h l) (perform_all ext ops)).
  { apply preserves_perform_all.
    - intros e w' H'. exact H'.
    - intros w' (Hwf' & H'). split; [|exact H'].
      intros a o Ha. simpl in *. apply Hwf' in Ha. lia.
    - intros. apply handle_kept_update_locksmith.
    - intros. apply handle_kept_update_locksmith.
    - intros. apply handle_kept_update_locksmith.
    - apply handle_kept_alloc. }
  destruct (Hkeep w (conj Hwf H)) as [_ Hh]. exact Hh.
Qed.

(** *** Which exceptions come out *)

Lemma clean_ret {A : Type} (a : A) : clean (mret a).
Proof. intros w e w' H. discriminate. Qed.

Lemma clean_raise {A : Type} (e : exn) :
  own_exception e = false → clean (@raise A e).
Proof. intros He w e' w' H. unfold raise in H. congruence. Qed.

Lemma clean_bind {A B : Type} (m : M A) (f : A → M B) :
  clean m → (∀ a, clean (f a)) → clean (m ≫= f).
Proof.
  intros Hm Hf w e w' H. unfold mbind, M_bind in H.
  destruct (m w) as [[a|e0] w0] eqn:Hmw.
  - apply (Hf a w0 e w' H).
  - simplify_eq. apply (Hm w e w' Hmw).
Qed.

Lemma clean_catch {A : Type} (m : M A) : clean (catch m).
Proof.
  intros w e w' H. unfold catch in H. destruct (m w). discriminate.
Qed.

Lemma clean_history : clean history.
Proof. intros w e w' H. discriminate. Qed.

Lemma clean_log (ev : event) : clean (log ev).
Proof. intros w e w' H. discriminate. Qed.

Lemma clean_fresh : clean fresh.
Proof. intros w e w' H. discriminate. Qed.

Lemma clean_read_locksmith (self : loc) : clean (read_locksmith self).
Proof.
  intros w e w' H. unfold read_locksmith in H.
  destruct (heap w !! self) as [[s|l]|]; simplify_eq; reflexivity.
Qed.

Lemma clean_read_lock (self : loc) : clean (read_lock self).
Proof.
  intros w e w' H. unfold read_lock in H.
  destruct (heap w !! self) as [[s|l]|]; simplify_eq; reflexivity.
Qed.

Lemma clean_update_locksmith (self : loc) (f : Locksmith → Locksmith) :
  clean (update_locksmith self f).
Proof.
  unfold update_locksmith. apply clean_bind; [apply clean_read_locksmith|].
  intros s w e w' H. discriminate.
Qed.

Lemma clean_alloc (o : object) : clean (alloc o).
Proof. intros w e w' H. discriminate. Qed.

Lemma clean_getitem (v : pyval) (i : Z) : clean (lift (getitem v i)).
Proof.
  intros w e w' H. unfold lift in H. injection H as H _.
  unfold getitem in H.
  destruct v; repeat case_match; simplify_eq; reflexivity.
Qed.

Lemma clean_threading_Lock : clean threading_Lock.
Proof. intros w e w' H. discriminate. Qed.

Lemma clean_tarantool_connection (self : loc) :
  clean (Locksmith_tarantool_connection self).
Proof.
  unfold Locksmith_tarantool_connection.
  apply clean_bind; [apply clean_read_locksmith|]. intros s.
  destruct (_conclass s); [apply clean_ret|].
  apply clean_bind; [apply clean_update_locksmith|]. intros _. apply clean_ret.
Qed.

Lemma clean_tarantool_lock (self : loc) :
  clean (Locksmith_tarantool_lock self).
Proof.
  unfold Locksmith_tarantool_lock.
  apply clean_bind; [apply clean_read_locksmith|]. intros s.
  destruct (_lockinst s); [apply clean_ret|].
  apply clean_bind; [apply clean_threading_Lock|]. intros lk.
  apply clean_bind; [apply clean_update_locksmith|]. intros _. apply clean_ret.
Qed.

Lemma clean_set_tarantool_connection (self : loc) (v : option pyobj) :
  clean (Locksmith_set_tarantool_connection self v).
Proof.
  unfold Locksmith_set_tarantool_connection.
  apply clean_bind; [|intros _; apply clean_update_locksmith].
  destruct v as [o|]; [|apply clean_update_locksmith].
  destruct (_ && _); [apply clean_update_locksmith|].
  apply clean_raise. reflexivity.
Qed.

Lemma clean_set_tarantool_lock (self : loc) (v : option pyobj) :
  clean (Locksmith_set_tarantool_lock self v).
Proof.
  unfold Locksmith_set_tarantool_lock.
  destruct v as [o|].
  - destruct (_ && _); [apply clean_update_locksmith|].
    apply clean_raise. reflexivity.
  - apply clean_bind; [apply clean_threading_Lock|]. intros lk.
    apply clean_update_locksmith.
Qed.

Lemma clean_init (h p u pw t : pyval) : clean (Locksmith_init h p u pw t).
Proof.
  unfold Locksmith_init.
  assert (Hraise : ∀ msg, clean (@raise_from unit ClsLock "BadConfigException" msg)).
  { intros msg. apply clean_raise. reflexivity. }
  apply clean_bind.
  { destruct (_ || _); [apply Hraise|apply clean_ret]. }
  intros _. apply clean_bind.
  { destruct (negb _); [apply Hraise|apply clean_ret]. }
  intros _. apply clean_bind; [apply clean_threading_Lock|]. intros lk.
  apply clean_alloc.
Qed.

Hypothesis Hforeign : foreign ext.

Lemma clean_lock_enter (lk : lockinst) : clean (lock_enter ext lk).
Proof.
  destruct Hforeign as (_ & _ & Henter & _).
  unfold lock_enter. apply clean_bind; [apply clean_history|]. intros tr.
  cbv zeta. apply clean_bind; [apply clean_log|]. intros _.
  destruct (enter_result ext tr lk) as [e|] eqn:He; [|apply clean_ret].
  apply clean_raise. destruct lk; simpl in He; [discriminate|].
  apply (Henter _ _ _ He).
Qed.

Lemma clean_lock_exit (lk : lockinst) (exc : option exn) :
  clean (lock_exit ext lk exc).
Proof.
  destruct Hforeign as (_ & _ & _ & Hexit).
  unfold lock_exit. apply clean_bind; [apply clean_history|]. intros tr.
  cbv zeta. apply clean_bind; [apply clean_log|]. intros _.
  intros w e w' H. unfold lift in H. injection H as H _.
  destruct lk; simpl in H; [discriminate|]. apply (Hexit _ _ _ _ H).
Qed.

Lemma clean_with (lk : lockinst) (body : M unit) :
  clean body → clean (with_ ext lk body).
Proof.
  intros Hbody. unfold with_.
  apply clean_bind; [apply clean_lock_enter|]. intros _.
  intros w e w' H. unfold mbind, M_bind, catch in H.
  destruct (body w) as [[[]|e0] w0] eqn:Hb.
  - destruct (lock_exit ext lk None w0) as [[b|e1] w1] eqn:Hx; simplify_eq.
    apply (clean_lock_exit lk None w0 e w' Hx).
  - destruct (lock_exit ext lk (Some e0) w0) as [[b|e1] w1] eqn:Hx.
    + destruct b; unfold raise in H; simplify_eq. apply (Hbody w e w0 Hb).
    + simplify_eq. apply (clean_lock_exit lk (Some e0) w0 e w' Hx).
Qed.

Lemma clean_instantiate (cls : conclass) (h p u pw t : pyval) :
  clean (instantiate ext cls h p u pw t).
Proof.
  destruct Hforeign as (Hinit & _).
  unfold instantiate. apply clean_bind; [apply clean_history|]. intros tr.
  destruct (ext_init ext tr cls h p u pw t) as [e|] eqn:He.
  - apply clean_bind; [apply clean_log|]. intros _.
    apply clean_raise. apply (Hinit _ _ _ _ _ _ _ _ He).
  - apply clean_bind; [apply clean_fresh|]. intros c.
    apply clean_bind; [apply clean_log|]. intros _. apply clean_ret.
Qed.

Lemma clean_call (c : option conn) (func : string) (args : list pyval) :
  clean (call ext c func args).
Proof.
  destruct Hforeign as (_ & Hcall & _).
  unfold call. destruct c as [c|]; [|apply clean_raise; reflexivity].
  apply clean_bind; [apply clean_history|]. intros tr.
  cbv zeta. apply clean_bind; [apply clean_log|]. intros _.
  intros w e w' H. unfold lift in H. injection H as H _.
  apply (Hcall _ _ _ _ _ H).
Qed.

Lemma clean_tnt (self : loc) : clean (Locksmith_tnt ext self).
Proof.
  unfold Locksmith_tnt.
  apply clean_bind; [apply clean_read_locksmith|]. intros s.
  apply clean_bind.
  - destruct (_tnt s); [apply clean_ret|].
    apply clean_bind; [apply clean_tarantool_lock|]. intros lk.
    apply clean_with.
    apply clean_bind; [apply clean_read_locksmith|]. intros s1.
    destruct (_tnt s1); [apply clean_ret|].
    apply clean_bind; [apply clean_tarantool_connection|]. intros cls.
    apply clean_bind; [apply clean_read_locksmith|]. intros s2.
    apply clean_bind; [apply clean_instantiate|]. intros c.
    apply clean_update_locksmith.
  - intros _. apply clean_bind; [apply clean_read_locksmith|]. intros s3.
    apply clean_ret.
Qed.

Lemma clean_update (self : loc) (lock_uid validity : pyval) :
  clean (Locksmith_update ext self lock_uid validity).
Proof.
  unfold Locksmith_update.
  apply clean_bind; [apply clean_tnt|]. intros c.
  apply clean_bind; [apply clean_call|]. intros reply.
  apply clean_bind; [apply clean_getitem|]. intros t.
  apply clean_bind; [apply clean_getitem|]. intros ok. apply clean_ret.
Qed.

Lemma clean_release (self : loc) (lock_uid : pyval) :
  clean (Locksmith_release ext self lock_uid).
Proof.
  unfold Locksmith_release.
  apply clean_bind; [apply clean_tnt|]. intros c.
  apply clean_bind; [apply clean_call|]. intros reply.
  apply clean_bind; [apply clean_getitem|]. intros t.
  apply clean_bind; [apply clean_getitem|]. intros ok. apply clean_ret.
Qed.

Lemma clean_statistics (self : loc) : clean (Locksmith_statistics ext self).
Proof.
  unfold Locksmith_statistics.
  apply clean_bind; [apply clean_tnt|]. intros c.
  apply clean_bind; [apply clean_call|]. intros reply.
  apply clean_bind; [apply clean_getitem|]. intros t.
  apply clean_getitem.
Qed.

Lemma clean_acquire (self : loc) (lock_name validity timeout : pyval) :
  clean (Locksmith_acquire ext self lock_name validity timeout).
Proof.
  unfold Locksmith_acquire, Lock_init.
  apply clean_bind; [apply clean_tnt|]. intros c.
  apply clean_bind; [apply clean_call|]. intros reply.
  apply clean_bind; [apply clean_getitem|]. intros t.
  apply clean_bind; [apply clean_getitem|]. intros ok.
  destruct (is_not_None ok); [|apply clean_ret].
  apply clean_bind; [apply clean_getitem|]. intros n.
  apply clean_bind; [apply clean_getitem|]. intros u.
  apply clean_bind; [apply clean_alloc|]. intros l. apply clean_ret.
Qed.

(** X15.  [BadConfigException], [ZeroTupleException] and [BadTupleException]
    are declared and never raised.  Unless the connection class, the
    lock object or the remote call raises one of them itself, no entry
    point of the module does: not the constructor, not a property, not an
    operation of the coordinator or of a handle. *)
Theorem own_exceptions_never_raised (o : op) (w w' : World) (e : exn) :
  invoke ext o w = (Raise e, w') → own_exception e = false.
Proof.
  revert w e w'. change (clean (invoke ext o)).
  destruct o; simpl;
    try (apply clean_bind; [|intros ?; apply clean_ret]).
  - apply clean_init.
  - apply clean_tarantool_connection.
  - apply clean_set_tarantool_connection.
  - apply clean_tarantool_lock.
  - apply clean_set_tarantool_lock.
  - apply clean_tnt.
  - apply clean_acquire.
  - apply clean_update.
  - apply clean_release.
  - apply clean_statistics.
  - unfold Lock_update. apply clean_bind; [apply clean_read_lock|].
    intros l. apply clean_update.
  - unfold Lock_release. apply clean_bind; [apply clean_read_lock|].
    intros l. apply clean_release.
Qed.

End MoreProperties.

(** ** Threads: exclusion, release and progress *)

Module MoreThreadFacts.

Import Threads ThreadFacts.
#[local] Open Scope nat_scope.

Lemma inside_zero (ps : list pc) :
  (∀ i p, ps !! i = Some p → in_with p = false) → inside ps = 0.
Proof.
  unfold inside. induction ps as [|q ps IH]; intros H; [reflexivity|].
  rewrite filter_cons. pose proof (H 0 q eq_refl) as Hq.
  case_decide; [congruence|]. apply IH. intros i p Hi. apply (H (S i) p Hi).
Qed.

Lemma inside_some (ps : list pc) :
  1 ≤ inside ps → ∃ j q, ps !! j = Some q ∧ in_with q = true.
Proof.
  unfold inside. induction ps as [|q ps IH]; simpl; [lia|].
  rewrite filter_cons. case_decide.
  - intros _. exists 0, q. split; [reflexivity|assumption].
  - intros H1. destruct (IH H1) as (j & q' & Hj & Hq').
    exists (S j), q'. split; assumption.
Qed.

Lemma inside_steps (st : state) (j : nat) (q : pc) :
  st_pcs st !! j = Some q → in_with q = true →
  ∃ st', step None j st = Some st'.
Proof.
  intros Hj Hq. unfold step. rewrite Hj.
  destruct q; try discriminate; eexists; reflexivity.
Qed.

(** X3.  The lock does its work.  In every state that threads reading the
    property can reach, two threads are never both inside the [with]
    block, and when no thread is inside it the lock is free: it is
    released on every way out, also when the constructor raised. *)
Theorem with_block_is_exclusive_and_released
  (n : nat) (sched : list (nat * option exn)) (i j : nat) (p q : pc) :
  let st := run sched (start n) in
  st_pcs st !! i = Some p → st_pcs st !! j = Some q →
  (in_with p = true → in_with q = true → i = j) ∧
  ((∀ k r, st_pcs st !! k = Some r → in_with r = false) →
   st_held st = false).
Proof.
  intros st Hi Hj.
  pose proof (run_inv sched (start n) (start_inv n)) as Hinv. fold st in Hinv.
  split.
  - intros Hp Hq. apply (exclusive st i j p q Hinv Hi Hj Hp Hq).
  - intros Hnone. pose proof (inv_excl _ Hinv) as Hex.
    rewrite (inside_zero _ Hnone) in Hex.
    destruct (st_held st); [discriminate|reflexivity].
Qed.

(** X4.  Threads reading the property cannot block each other for good:
    in every reachable state in which some thread has not yet returned,
    some thread can take a step. *)
Theorem threads_never_deadlock
  (n : nat) (sched : list (nat * option exn)) (i : nat) (p : pc) :
  let st := run sched (start n) in
  st_pcs st !! i = Some p → (∀ r, p ≠ Returned r) →
  ∃ j st', step None j st = Some st'.
Proof.
  intros st Hi Hp.
  pose proof (run_inv sched (start n) (start_inv n)) as Hinv. fold st in Hinv.
  destruct (st_held st) eqn:Hheld.
  - pose proof (inv_excl _ Hinv) as Hex. rewrite Hheld in Hex.
    destruct (inside_some (st_pcs st)) as (j & q & Hj & Hq); [lia|].
    destruct (inside_steps st j q Hj Hq) as [st' Hst]. eauto.
  - exists i. unfold step. rewrite Hi, Hheld.
    destruct p; try (eexists; reflexivity). exfalso. eapply Hp. reflexivity.
Qed.

Lemma with_block_is_exclusive_and_released_witness :
  let st := run mid_race (start 2) in
  (in_with AtConstruct = true → in_with AtConstruct = true → 0 = 0) ∧
  ((∀ k r, st_pcs st !! k = Some r → in_with r = false) →
   st_held st = false).
Proof.
  apply (with_block_is_exclusive_and_released 2 mid_race 0 0
           AtConstruct AtConstruct); reflexivity.
Defined.

Lemma threads_never_deadlock_witness :
  ∃ j st', step None j (run mid_race (start 2)) = Some st'.
Proof.
  apply (threads_never_deadlock 2 mid_race 1 AtEnter); [reflexivity|].
  intros r. discriminate.
Defined.

End MoreThreadFacts.

(** ** Well-formed heaps *)

Lemma wf_empty : wf empty_world.
Proof. intros l o H. simpl in H. rewrite lookup_empty in H. discriminate. Qed.

Lemma wf_update_locksmith (self : loc) (f : Locksmith → Locksmith) :
  preserves wf (update_locksmith self f).
Proof.
  intros w Hwf. unfold update_locksmith, read_locksmith, store.
  unfold_monad. unfold wf in *.
  destruct (heap w !! self) as [[s|l']|] eqn:Hs; simpl; auto.
  intros a o Ha. destruct (decide (a = self)) as [->|Hne].
  - eapply Hwf. exact Hs.
  - rewrite lookup_insert_ne in Ha by congruence. eapply Hwf. exact Ha.
Qed.

Lemma wf_perform_all (ext : Extern) (ops : list op) : preserves wf (perform_all ext ops).
Proof.
  apply preserves_perform_all.
  - intros e w H. exact H.
  - intros w H a o Ha. simpl in *. apply H in Ha. lia.
  - intros. apply wf_update_locksmith.
  - intros. apply wf_update_locksmith.
  - intros. apply wf_update_locksmith.
  - intros o w H. unfold_monad. simpl. intros a o' Ha. simpl in *.
    destruct (decide (a = next_id w)) as [->|Hne]; [lia|].
    rewrite lookup_insert_ne in Ha by congruence. apply H in Ha. lia.
Qed.

Lemma held_world_is_opening_program :
  held_world = snd (perform_all sim opening_program empty_world).
Proof. vm_compute. reflexivity. Qed.

Lemma wf_held_world : wf held_world.
Proof.
  rewrite held_world_is_opening_program. apply wf_perform_all. apply wf_empty.
Qed.

(** ** The further theorems on concrete worlds *)

Lemma settings_fixed_witness :
  ∃ s, locksmith_at (snd (perform_all sim later_program held_world)) 1 = Some s ∧
       settings s = (PStr "127.0.0.1", PInt 33013, PStr "test", PStr "test",
                     default_timeout).
Proof.
  destruct (settings_fixed sim (PStr "127.0.0.1") (PInt 33013) (PStr "test")
              (PStr "test") default_timeout empty_world demo_world 1
              (OpAcquire 1 (PStr "foo") (PInt 60) PNone :: later_program)
              wf_empty eq_refl) as (s & Hs & Hcfg).
  exists s. split; [exact Hs|exact Hcfg].
Defined.

Lemma handles_never_change_witness :
  lock_at (snd (perform_all sim later_program held_world)) 3 =
  Some {| locksmith := 1; name := PStr "foo"; uid := PStr "lease-1" |}.
Proof.
  apply (handles_never_change sim 3 _ held_world later_program wf_held_world).
  vm_compute. reflexivity.
Defined.

Lemma failed_construction_propagates_and_is_not_cached_witness :
  fst (Locksmith_tnt unreachable 1 demo_world)
    = Raise (NetworkError "Connection refused") ∧
  locksmith_at (snd (Locksmith_tnt unreachable 1 demo_world)) 1
    = Some demo_coordinator ∧
  Locksmith_update unreachable 1 (PStr "lease-1") (PInt 30) demo_world =
    (Raise (NetworkError "Connection refused"),
     logged_all demo_world
       (failed_use (ThreadingLock 0) TarantoolConnection demo_coordinator
                   (NetworkError "Connection refused") false)).
Proof.
  destruct (failed_construction_propagates_and_is_not_cached unreachable
              demo_world 1 demo_coordinator (ThreadingLock 0)
              TarantoolConnection (NetworkError "Connection refused"))
    as (Htnt & Hat & _ & Hupd & _); try reflexivity.
  - repeat split; reflexivity.
  - rewrite Htnt. split; [reflexivity|]. split; [exact Hat|]. apply Hupd.
Defined.

Lemma swallowing_lock_hides_connection_error_witness :
  fst (Locksmith_tnt swallowing 1 suppressed_world) = Ok None ∧
  fst (Locksmith_acquire swallowing 1 (PStr "foo") (PInt 60) PNone
                         suppressed_world)
    = Raise (AttributeError "'NoneType' object has no attribute 'call'").
Proof.
  destruct (swallowing_lock_hides_connection_error swallowing
              suppressed_world 1
              (with_lockinst (Some (CustomLock a_suppressing_lock))
                             demo_coordinator)
              (CustomLock a_suppressing_lock)
              TarantoolConnection (NetworkError "Connection refused"))
    as (Htnt & Hacq & _); try reflexivity.
  - repeat split; reflexivity.
  - rewrite Htnt, Hacq. split; reflexivity.
Defined.



Lemma update_release_call_shape_witness :
  trace (snd (Locksmith_update sim 1 (PStr "lease-1") (PInt 30) held_world)) =
    (trace held_world ++
     [EvCall 2 "locksmith:update" [PTuple [PStr "lease-1"; PInt 30]]
        (Ok (PList [PTuple [PStr "lease-1"]]))])%list ∧
  trace (snd (Locksmith_release sim 1 (PStr "lease-1") held_world)) =
    (trace held_world ++
     [EvCall 2 "locksmith:release" [PTuple [PStr "lease-1"]]
        (Ok (PList [PTuple [PStr "lease-1"]]))])%list.
Proof.
  destruct (update_release_call_shape sim 1 (PStr "lease-1") (PInt 30)
              held_world held_world 2) as [Hu Hr].
  - vm_compute. reflexivity.
  - rewrite Hu, Hr. split; reflexivity.
Defined.

Lemma lock_released_before_call_witness :
  trace (snd (Locksmith_statistics sim 1 demo_world)) =
  [EvEnter (ThreadingLock 0) None;
   EvInit TarantoolConnection (PStr "127.0.0.1") (PInt 33013) (PStr "test")
          (PStr "test") default_timeout (Ok 2);
   EvExit (ThreadingLock 0) None (Ok false);
   EvCall 2 "locksmith:statistics" []
          (Ok (PList [PTuple [PDict [(PStr "held", PBool false)]]]))].
Proof.
  destruct (lock_released_before_call sim 1 demo_world demo_coordinator
              (ThreadingLock 0) TarantoolConnection false)
    as (_ & _ & _ & Hst).
  - reflexivity.
  - reflexivity.
  - reflexivity.
  - reflexivity.
  - repeat split; reflexivity.
  - rewrite Hst. reflexivity.
Defined.

Lemma fresh_coordinator_first_use_witness :
  ∃ w1, Locksmith_init default_host default_port PNone PNone default_timeout
                       empty_world = (Ok 1, w1) ∧
  ∃ w2, Locksmith_tnt sim 1 w1 = (Ok (Some 2), w2) ∧
        trace w2 =
        [EvEnter (ThreadingLock 0) None;
         EvInit TarantoolConnection default_host default_port PNone PNone
                default_timeout (Ok 2);
         EvExit (ThreadingLock 0) None (Ok false)].
Proof.
  apply (fresh_coordinator_first_use sim default_host default_port PNone PNone
           default_timeout empty_world); reflexivity.
Defined.

Lemma setter_getter_round_trip_witness :
  fst (Locksmith_tarantool_connection 1
         (snd (Locksmith_set_tarantool_connection 1 (Some FakeConnection)
                                                  demo_world)))
    = Ok (CustomClass FakeConnection) ∧
  fst (Locksmith_tarantool_lock 1
         (snd (Locksmith_set_tarantool_lock 1 (Some an_rlock) demo_world)))
    = Ok (CustomLock an_rlock).
Proof.
  destruct (setter_getter_round_trip 1 demo_world demo_coordinator
              (Some FakeConnection) an_rlock) as (Hc & Hl & _);
    try reflexivity.
  cbv zeta in Hc, Hl. rewrite Hc, Hl. split; reflexivity.
Defined.

Lemma own_exceptions_never_raised_witness :
  own_exception (NetworkError "Broken pipe") = false.
Proof.
  refine (own_exceptions_never_raised broken_pipe _
            (OpUpdate 1 (PStr "lease-1") (PInt 30)) connected_world
            (snd (invoke broken_pipe (OpUpdate 1 (PStr "lease-1") (PInt 30))
                         connected_world))
            (NetworkError "Broken pipe") _).
  - repeat split; intros; simpl in *; simplify_eq; reflexivity.
  - vm_compute. reflexivity.
Defined.
